(** * Delaware MMP bids scraper: a shallow embedding of
      [scrape_delaware_bids.js] and the properties of its crawl-and-enrich
      pipeline.

    Strings are byte strings ([string]); the whitespace class [\s] and
    [toLowerCase] are modelled on the ASCII range.  A JavaScript [Set] of
    strings is a [gset string]; arrays are lists; the browser page is an
    explicit state threaded through a small state-and-exception monad. *)

From Stdlib Require Import ZArith Ascii String.
From stdpp Require Import base decidable option list gmap strings pretty.

Set Warnings "-abstract-large-number".
Local Open Scope Z_scope.
#[local] Arguments String.append : simpl nomatch.

(** ** Part I: definitions *)

(** *** JavaScript string primitives *)

(** Truthiness of a string value: only the empty string is falsy. *)
Definition truthy (s : string) : bool :=
  match s with EmptyString => false | String _ _ => true end.

(** [a || b] on strings. *)
Definition or_else (a b : string) : string := if truthy a then a else b.

(** The ASCII part of the regular-expression class [\s]
    (tab, line feed, vertical tab, form feed, carriage return, space). *)
Definition is_ws (c : ascii) : bool :=
  let n := nat_of_ascii c in
  ((9 <=? n)%nat && (n <=? 13)%nat) || (n =? 32)%nat.

(** [s.replace(/\s+/g, " ")]: [in_run] records that the previous character
    belonged to a whitespace run that has already been replaced. *)
Fixpoint collapse_ws (in_run : bool) (s : string) : string :=
  match s with
  | EmptyString => EmptyString
  | String c rest =>
      if is_ws c
      then (if in_run then collapse_ws true rest
            else String " "%char (collapse_ws true rest))
      else String c (collapse_ws false rest)
  end.

Fixpoint trim_start (s : string) : string :=
  match s with
  | EmptyString => EmptyString
  | String c rest => if is_ws c then trim_start rest else s
  end.

Fixpoint trim_end (s : string) : string :=
  match s with
  | EmptyString => EmptyString
  | String c rest =>
      match trim_end rest with
      | EmptyString => if is_ws c then EmptyString else String c EmptyString
      | r => String c r
      end
  end.

(** [s.trim()]. *)
Definition trim (s : string) : string := trim_end (trim_start s).

(** [normalize(s)] (and the in-page [norm]):
    [(s || "").replace(/\s+/g, " ").trim()]. *)
Definition normalize (s : string) : string :=
  trim (collapse_ws false (or_else s "")).

Definition lower_char (c : ascii) : ascii :=
  let n := nat_of_ascii c in
  if ((65 <=? n)%nat && (n <=? 90)%nat)%bool then ascii_of_nat (n + 32) else c.

(** [s.toLowerCase()]. *)
Fixpoint toLowerCase (s : string) : string :=
  match s with
  | EmptyString => EmptyString
  | String c rest => String (lower_char c) (toLowerCase rest)
  end.

(** The in-page [lower]: [norm(s).toLowerCase()]. *)
Definition lower (s : string) : string := toLowerCase (normalize s).

Fixpoint starts_with (a h : string) : bool :=
  match a, h with
  | EmptyString, _ => true
  | String x a', String y h' => if Ascii.eqb x y then starts_with a' h' else false
  | String _ _, EmptyString => false
  end.

(** [h.includes(a)]: [a] occurs in [h] as a contiguous substring. *)
Fixpoint includes (h a : string) : bool :=
  starts_with a h ||
  match h with
  | EmptyString => false
  | String _ h' => includes h' a
  end.

(** *** Generic array helpers *)

(** [arr.findIndex(p)], with the [-1] sentinel. *)
Fixpoint findIndex_from {A} (p : A → bool) (i : Z) (arr : list A) : Z :=
  match arr with
  | [] => -1
  | x :: rest => if p x then i else findIndex_from p (i + 1) rest
  end.

Definition findIndex {A} (p : A → bool) (arr : list A) : Z :=
  findIndex_from p 0 arr.

(** [uniqBy(arr, keyFn)]: the loop state is the [seen] set and the [out]
    array; an element whose key is falsy or already seen is skipped. *)
Fixpoint uniqBy_loop {A} (keyFn : A → string) (arr : list A)
    (seen : gset string) (out : list A) : list A :=
  match arr with
  | [] => out
  | x :: rest =>
      let k := keyFn x in
      if negb (truthy k) || bool_decide (k ∈ seen)
      then uniqBy_loop keyFn rest seen out
      else uniqBy_loop keyFn rest ({[k]} ∪ seen) (out ++ [x])
  end.

Definition uniqBy {A} (arr : list A) (keyFn : A → string) : list A :=
  uniqBy_loop keyFn arr ∅ [].

(** *** Records *)

(** One entry of a record's [files] array. *)
Record FileEntry := { title : string; Url : string }.

(** The object built by [scrapePageRows]; [_detail_error] is a key that is
    absent until an enrichment failure adds it. *)
Record Row := {
  id : string;
  contract_number : string;
  contract_title : string;
  open_date : string;
  deadline_date : string;
  agency_code : string;
  unspc : string;
  contact_email : string;
  files : list FileEntry;
  bookmarkable_link_url : string;
  agency_full : string;
  _detail_error : option string;
}.

(** *** The rendered document *)

(** A [tr.jqgrow] element: its [id] attribute ([None] when the attribute is
    missing), its own [innerText], and the [innerText] of its [td] cells. *)
Record Tr := {
  tr_id : option string;
  tr_innerText : string;
  tr_tds : list string;
}.

(** What the scraper reads of the live document: the header cells'
    [innerText], the grid rows, the class list of [td#next_jqg1] ([None] when
    the element is absent) and the [value] of the pager input ([None] when
    there is no such input). *)
Record Dom := {
  dom_ths : list string;
  dom_rows : list Tr;
  dom_next : option (list string);
  dom_pg_input : option string;
}.

(** *** Field resolver and row extractor ([scrapePageRows]) *)

Definition ths_of (d : Dom) : list string := map lower (dom_ths d).

(** [findCol(aliases)] over the lower-cased header texts [ths]. *)
Definition findCol (ths : list string) (aliases : list string) : Z :=
  findIndex (fun h => existsb (fun a => includes h a) aliases) ths.

Record ColIdx := {
  col_contract_number : Z;
  col_contract_title : Z;
  col_open_date : Z;
  col_deadline_date : Z;
  col_agency_code : Z;
  col_unspc : Z;
}.

Definition colIdx (ths : list string) : ColIdx := {|
  col_contract_number :=
    findCol ths ["contract"; "solicitation"; "bid"; "#"; "number"];
  col_contract_title := findCol ths ["title"; "description"];
  col_open_date := findCol ths ["open"; "posted"; "issue"; "start"];
  col_deadline_date := findCol ths ["deadline"; "close"; "closing"; "due"];
  col_agency_code := findCol ths ["agency"; "dept"; "department"];
  col_unspc := findCol ths ["unspsc"; "unspc"; "commodity"; "category"];
|}.

(** [get(k)] for a resolved index [c]:
    [c >= 0 ? tds[c] || "" : ""]; reading past the end of [tds] gives
    [undefined], which [||] turns into the empty string. *)
Definition get (tds : list string) (c : Z) : string :=
  if 0 <=? c
  then match tds !! Z.to_nat c with
       | Some s => or_else s ""
       | None => ""
       end
  else "".

Definition detail_template : string := "/Bids/GetBidDetail?id=".

(** The object literal returned for one [tr]. *)
Definition extract_row (ci : ColIdx) (tr : Tr) : Row :=
  let tds := map normalize (tr_tds tr) in
  let rid := or_else (default "" (tr_id tr)) "" in
  {| id := rid;
     contract_number := get tds (col_contract_number ci);
     contract_title := get tds (col_contract_title ci);
     open_date := get tds (col_open_date ci);
     deadline_date := get tds (col_deadline_date ci);
     agency_code := get tds (col_agency_code ci);
     unspc := get tds (col_unspc ci);
     contact_email := "";
     files := [];
     bookmarkable_link_url :=
       if truthy rid then detail_template +:+ rid else "";
     agency_full := "";
     _detail_error := None |}.

Definition keep_row (r : Row) : bool :=
  truthy (contract_number r) || truthy (contract_title r).

Definition scrapePageRows (d : Dom) : list Row :=
  filter (fun r => keep_row r = true)
         (map (extract_row (colIdx (ths_of d))) (dom_rows d)).

(** *** [JSON.stringify] on the values that reach it *)

Definition dquote : ascii := ascii_of_nat 34.
Definition backslash : ascii := ascii_of_nat 92.

Definition hex_digit (n : nat) : ascii :=
  if (n <? 10)%nat then ascii_of_nat (48 + n) else ascii_of_nat (87 + n).

(** The escape of one character inside a JSON string literal. *)
Definition json_escape (c : ascii) : string :=
  let n := nat_of_ascii c in
  if (n =? 34)%nat then String backslash (String dquote "")
  else if (n =? 92)%nat then String backslash (String backslash "")
  else if (n =? 8)%nat then String backslash "b"
  else if (n =? 9)%nat then String backslash "t"
  else if (n =? 10)%nat then String backslash "n"
  else if (n =? 12)%nat then String backslash "f"
  else if (n =? 13)%nat then String backslash "r"
  else if (n <? 32)%nat
       then String backslash
              ("u00" +:+ String (hex_digit (n / 16))
                           (String (hex_digit (n mod 16)) ""))
  else String c "".

Fixpoint json_escape_all (s : string) : string :=
  match s with
  | EmptyString => EmptyString
  | String c rest => json_escape c +:+ json_escape_all rest
  end.

Definition json_string (s : string) : string :=
  String dquote (json_escape_all s +:+ String dquote "").

Definition json_member (key value : string) : string :=
  json_string key +:+ ":" +:+ value.

Fixpoint json_join (items : list string) : string :=
  match items with
  | [] => ""
  | [x] => x
  | x :: rest => x +:+ "," +:+ json_join rest
  end.

Definition json_object (members : list string) : string :=
  "{" +:+ json_join members +:+ "}".

Definition json_array (items : list string) : string :=
  "[" +:+ json_join items +:+ "]".

Definition json_of_file (f : FileEntry) : string :=
  json_object [json_member "title" (json_string (title f));
               json_member "Url" (json_string (Url f))].

(** [JSON.stringify(r)]: the keys in insertion order; the [_detail_error]
    key appears only when it is present on the object. *)
Definition JSON_stringify (r : Row) : string :=
  json_object
    ([json_member "id" (json_string (id r));
      json_member "contract_number" (json_string (contract_number r));
      json_member "contract_title" (json_string (contract_title r));
      json_member "open_date" (json_string (open_date r));
      json_member "deadline_date" (json_string (deadline_date r));
      json_member "agency_code" (json_string (agency_code r));
      json_member "unspc" (json_string (unspc r));
      json_member "contact_email" (json_string (contact_email r));
      json_member "files" (json_array (map json_of_file (files r)));
      json_member "bookmarkable_link_url"
                  (json_string (bookmarkable_link_url r));
      json_member "agency_full" (json_string (agency_full r))]
     ++ match _detail_error r with
        | Some e => [json_member "_detail_error" (json_string e)]
        | None => []
        end).

(** *** Identity keys and the per-page bookkeeping of [run] *)

(** The key of the per-page loop:
    [r.bookmarkable_link_url || r.contract_number || JSON.stringify(r)]. *)
Definition page_key (r : Row) : string :=
  or_else (bookmarkable_link_url r)
          (or_else (contract_number r) (JSON_stringify r)).

(** The key function handed to the final [uniqBy]:
    [r.bookmarkable_link_url || r.contract_number]. *)
Definition final_key (r : Row) : string :=
  or_else (bookmarkable_link_url r) (contract_number r).

(** The spread that re-normalizes the string fields of a scraped row. *)
Definition normalize_row (r : Row) : Row :=
  {| id := id r;
     contract_number := normalize (contract_number r);
     contract_title := normalize (contract_title r);
     open_date := normalize (open_date r);
     deadline_date := normalize (deadline_date r);
     agency_code := normalize (agency_code r);
     unspc := normalize (unspc r);
     contact_email := contact_email r;
     files := files r;
     bookmarkable_link_url := normalize (bookmarkable_link_url r);
     agency_full := agency_full r;
     _detail_error := _detail_error r |}.

Definition with_agency_full (r : Row) (full : string) : Row :=
  {| id := id r;
     contract_number := contract_number r;
     contract_title := contract_title r;
     open_date := open_date r;
     deadline_date := deadline_date r;
     agency_code := agency_code r;
     unspc := unspc r;
     contact_email := contact_email r;
     files := files r;
     bookmarkable_link_url := bookmarkable_link_url r;
     agency_full := full;
     _detail_error := _detail_error r |}.

(** [agencyMap.get(code) || ""]. *)
Definition agency_lookup (agencyMap : gmap string string) (code : string)
  : string :=
  or_else (default "" (agencyMap !! code)) "".

(** The inner [for (const r of rows)] loop: rows whose key is new are
    pushed on [all] with their joined agency name. *)
Fixpoint add_new (agencyMap : gmap string string) (rows : list Row)
    (all : list Row) (seenLinks : gset string) : list Row * gset string :=
  match rows with
  | [] => (all, seenLinks)
  | r :: rest =>
      let key := page_key r in
      if bool_decide (key ∈ seenLinks)
      then add_new agencyMap rest all seenLinks
      else add_new agencyMap rest
             (all ++ [with_agency_full r (agency_lookup agencyMap (agency_code r))])
             ({[key]} ∪ seenLinks)
  end.

(** *** Thrown values and results *)

(** What a [catch] clause can receive: an [Error] object (its [name] and
    [message]) or a thrown string. *)
Inductive JsThrown :=
| ErrorObject (name message : string)
| ThrownString (s : string).

(** Puppeteer's [TimeoutError], raised by a wait whose timeout elapsed. *)
Definition TimeoutError (ms : N) : JsThrown :=
  ErrorObject "TimeoutError"
    ("Waiting failed: " +:+ pretty ms +:+ "ms exceeded").

Inductive Result (A : Type) :=
| Ok (a : A)
| Throw (e : JsThrown).
Arguments Ok {A} a.
Arguments Throw {A} e.

(** *** The page as a capability *)

(** The live page: [read_dom] is what [page.evaluate] sees, [tick] lets
    one polling interval pass, [click_next] is [page.click("td#next_jqg1")],
    [selector_present] answers [document.querySelector] for the generic row
    selectors, and [polls_within ms] is the number of polling intervals that
    fit in [ms] milliseconds. *)
Class Browser (W : Type) := {
  read_dom : W → Dom;
  selector_present : string → W → bool;
  tick : W → W;
  click_next : W → W;
  polls_within : N → nat;
}.

(** Page actions: state passing with exceptions. *)
Definition M (W A : Type) : Type := W → Result (A * W).

Definition ret {W A} (a : A) : M W A := fun s => Ok (a, s).

Definition bind {W A B} (m : M W A) (k : A → M W B) : M W B :=
  fun s => match m s with
           | Ok (a, s') => k a s'
           | Throw e => Throw e
           end.

Notation "'do' x ← m 'in' k" := (bind m (fun x => k))
  (at level 10, x name, m at level 100, k at level 200).
Notation "'exec' m 'in' k" := (bind m (fun _ => k))
  (at level 10, m at level 100, k at level 200).

Section Page.
Context {W : Type} `{Browser W}.

(** Polling: the condition is tested now and after each of [n] further
    intervals; the state reached is returned together with the verdict. *)
Fixpoint poll (cond : W → bool) (n : nat) (s : W) : bool * W :=
  if cond s then (true, s)
  else match n with
       | O => (false, s)
       | S n' => poll cond n' (tick s)
       end.

(** [page.waitForSelector] / [page.waitForFunction] with a timeout. *)
Definition wait_for (cond : W → bool) (ms : N) : M W unit :=
  fun s => match poll cond (polls_within ms) s with
           | (true, s') => Ok (tt, s')
           | (false, _) => Throw (TimeoutError ms)
           end.

(** [sleep(ms)]. *)
Definition sleep (ms : N) : M W unit :=
  fun s => Ok (tt, Nat.iter (polls_within ms) tick s).

(** [page.click(nextSel)] on the control that was just found. *)
Definition click : M W unit := fun s => Ok (tt, click_next s).

(** [page.evaluate] of a synchronous read of the document. *)
Definition evaluate {A} (f : Dom → A) : M W A :=
  fun s => Ok (f (read_dom s), s).

Definition any_rows_selectors : list string :=
  ["table tbody tr"; "[role='table'] [role='row']";
   ".rt-tbody .rt-tr"; ".dataTable tbody tr"].

(** [waitForAnyRows]: each selector is awaited for 8 s and a timeout is
    swallowed; when none appears the function sleeps 1.5 s. *)
Fixpoint waitForAnyRows_from (sels : list string) : M W unit :=
  match sels with
  | [] => sleep 1500%N
  | sel :: rest =>
      fun s => match poll (selector_present sel) (polls_within 8000%N) s with
               | (true, s') => Ok (tt, s')
               | (false, s') => waitForAnyRows_from rest s'
               end
  end.

Definition waitForAnyRows : M W unit :=
  waitForAnyRows_from any_rows_selectors.

Definition first_row (d : Dom) : option Tr := head (dom_rows d).

(** The condition of the second wait of [waitForRenderedRows]: the first
    row's whitespace-normalized text is longer than 10. *)
Definition first_row_rendered (d : Dom) : bool :=
  match first_row d with
  | Some r => (10 <? String.length (normalize (tr_innerText r)))%nat
  | None => false
  end.

Definition waitForRenderedRows : M W unit :=
  exec wait_for (fun s => bool_decide (dom_rows (read_dom s) ≠ [])) 45000%N in
  wait_for (fun s => first_row_rendered (read_dom s)) 45000%N.
End Page.

(** *** Pagination ([findAndClickNext]) *)

(** A value read off the argument of the wait predicate. *)
Inductive JsVal :=
| JsUndefined
| JsNumber (n : nat)
| JsString (s : string).

(** Property access [prev.name] on a string primitive for a non-index
    name: only [length] is an own property. *)
Definition string_prop (prev : string) (name : string) : JsVal :=
  if bool_decide (name = "length") then JsNumber (String.length prev)
  else JsUndefined.

(** [a !== v] for a string [a]. *)
Definition strict_neq (a : string) (v : JsVal) : bool :=
  match v with
  | JsString b => negb (bool_decide (a = b))
  | _ => true
  end.

Definition next_disabled (d : Dom) : bool :=
  match dom_next d with
  | None => true
  | Some classes => bool_decide ("disabled" ∈ classes)
  end.

(** [before]: the trimmed text of the first row, or the empty string. *)
Definition first_row_text (d : Dom) : string :=
  match first_row d with
  | Some r => trim (or_else (tr_innerText r) "")
  | None => ""
  end.

Definition nowId (d : Dom) : string :=
  match first_row d with
  | Some r => or_else (default "" (tr_id r)) ""
  | None => ""
  end.

Definition nowPage (d : Dom) : string :=
  match dom_pg_input d with
  | Some v => trim (or_else v "")
  | None => ""
  end.

(** The function polled by [page.waitForFunction], applied to
    [prev = before]. *)
Definition page_changed (prev : string) (d : Dom) : bool :=
  (truthy (nowId d) && strict_neq (nowId d) (string_prop prev "firstRowId"))
  || (truthy (first_row_text d)
      && strict_neq (first_row_text d) (string_prop prev "firstRowText"))
  || (truthy (nowPage d)
      && strict_neq (nowPage d) (string_prop prev "pageNum")).

Definition findAndClickNext {W} `{Browser W} : M W bool :=
  do disabled ← evaluate next_disabled in
  if disabled then ret false
  else
    exec click in
    do before ← evaluate first_row_text in
    exec wait_for (fun s => page_changed before (read_dom s)) 30000%N in
    ret true.

(** *** The directory walk of [run] *)

Definition MAX_PAGES : nat := 300.
Definition MAX_ITEMS : nat := 5000.
Definition DETAILS_CONCURRENCY : nat := 4.

(** The first half of the loop body: the two waits, the scrape and the
    re-normalization of the scraped rows. *)
Definition visit_page {W} `{Browser W} : M W (list Row) :=
  exec waitForAnyRows in
  exec waitForRenderedRows in
  do rows ← evaluate scrapePageRows in
  ret (map normalize_row rows).

(** The [for (let p = 1; p <= MAX_PAGES; p++)] loop with [pages_left]
    iterations still to run; [maxItems] stands for [MAX_ITEMS]. *)
Fixpoint walk_loop {W} `{Browser W} (agencyMap : gmap string string)
    (maxItems : nat) (pages_left : nat) (all : list Row)
    (seenLinks : gset string) : M W (list Row) :=
  match pages_left with
  | O => ret all
  | S n =>
      do rows ← visit_page in
      let '(all', seen') := add_new agencyMap rows all seenLinks in
      if (maxItems <=? length all')%nat then ret all'
      else
        do clicked ← findAndClickNext in
        if clicked then walk_loop agencyMap maxItems n all' seen'
        else ret all'
  end.

(** The two waits that [run] performs on the freshly loaded page, before
    the loop. *)
Definition walk_start {W} `{Browser W} : M W unit :=
  exec waitForRenderedRows in waitForAnyRows.

(** The walk, from the loaded page up to and including the final
    [uniqBy]. *)
Definition walk {W} `{Browser W} (agencyMap : gmap string string)
    (maxPages maxItems : nat) : M W (list Row) :=
  exec walk_start in
  do all ← walk_loop agencyMap maxItems maxPages [] ∅ in
  ret (uniqBy all final_key).

Definition run_walk {W} `{Browser W} (agencyMap : gmap string string)
  : M W (list Row) :=
  walk agencyMap MAX_PAGES MAX_ITEMS.

(** *** Detail enrichment ([scrapeDetailsViaApi]) *)

(** The object returned by the in-page function:
    [{ contact_email, files }]. *)
Record Detail := {
  detail_contact_email : string;
  detail_files : list FileEntry;
}.

(** How the awaited [page.evaluate] settles for one record. *)
Inductive EvalOutcome :=
| Resolved (d : Detail)
| Rejected (e : JsThrown).

(** [String(e)]: [Error.prototype.toString] for an error object. *)
Definition String_of (e : JsThrown) : string :=
  match e with
  | ThrownString s => s
  | ErrorObject name message =>
      if truthy name
      then (if truthy message then name +:+ ": " +:+ message else name)
      else message
  end.

(** [String(e?.message || e)]; a thrown string has no [message]. *)
Definition error_text (e : JsThrown) : string :=
  match e with
  | ErrorObject _ message => if truthy message then message else String_of e
  | ThrownString _ => String_of e
  end.

Definition with_detail (base : Row) (d : Detail) : Row :=
  {| id := id base;
     contract_number := contract_number base;
     contract_title := contract_title base;
     open_date := open_date base;
     deadline_date := deadline_date base;
     agency_code := agency_code base;
     unspc := unspc base;
     contact_email := detail_contact_email d;
     files := detail_files d;
     bookmarkable_link_url := bookmarkable_link_url base;
     agency_full := agency_full base;
     _detail_error := _detail_error base |}.

Definition with_detail_error (base : Row) (msg : string) : Row :=
  {| id := id base;
     contract_number := contract_number base;
     contract_title := contract_title base;
     open_date := open_date base;
     deadline_date := deadline_date base;
     agency_code := agency_code base;
     unspc := unspc base;
     contact_email := contact_email base;
     files := files base;
     bookmarkable_link_url := bookmarkable_link_url base;
     agency_full := agency_full base;
     _detail_error := Some msg |}.

(** [scrapeDetailsViaApi(page, baseRecord)], given how its
    [page.evaluate] call settles. *)
Definition scrapeDetailsViaApi (outcome : EvalOutcome) (base : Row) : Row :=
  if negb (truthy (id base)) then base
  else match outcome with
       | Resolved d => with_detail base d
       | Rejected e => with_detail_error base (error_text e)
       end.

(** *** The worker pool of [run] *)

(** [arr[i] = v] on an array with holes: writing past the end extends the
    array, leaving holes in between. *)
Definition js_set {A} (arr : list (option A)) (i : nat) (v : A)
  : list (option A) :=
  if decide (i < length arr)%nat then <[i := Some v]> arr
  else arr ++ replicate (i - length arr) None ++ [Some v].

(** [arr[i]], with holes and out-of-range reads both giving nothing. *)
Definition js_get {A} (arr : list (option A)) (i : nat) : option A :=
  mjoin (arr !! i).

(** Where one [worker()] activation stands: before the loop test, suspended
    at the [await] with its claimed index and record, or returned. *)
Inductive WorkerState :=
| Ready
| Awaiting (i : nat) (base : Row)
| Finished.

(** The variables shared by the workers, the workers themselves, and the
    history of claims (worker, index), which the program does not store. *)
Record Pool := {
  idx : nat;
  out : list (option Row);
  workers : list WorkerState;
  claimed : list (nat * nat);
}.

(** One uninterrupted stretch of worker [w]: either the loop test with the
    claim [i = idx++] up to the [await], or the resumption that stores
    [out[i]].  [all !! idx] is defined exactly when [idx < all.length]. *)
Definition pool_step (all : list Row) (outcome : nat → EvalOutcome)
    (w : nat) (p : Pool) : Pool :=
  match workers p !! w with
  | Some Ready =>
      match all !! idx p with
      | Some base =>
          {| idx := S (idx p);
             out := out p;
             workers := <[w := Awaiting (idx p) base]> (workers p);
             claimed := claimed p ++ [(w, idx p)] |}
      | None =>
          {| idx := idx p;
             out := out p;
             workers := <[w := Finished]> (workers p);
             claimed := claimed p |}
      end
  | Some (Awaiting i base) =>
      {| idx := idx p;
         out := js_set (out p) i (scrapeDetailsViaApi (outcome i) base);
         workers := <[w := Ready]> (workers p);
         claimed := claimed p |}
  | Some Finished | None => p
  end.

(** A schedule names the worker that runs next, step after step. *)
Definition pool_exec (all : list Row) (outcome : nat → EvalOutcome)
    (sched : list nat) (p : Pool) : Pool :=
  foldl (fun q w => pool_step all outcome w q) p sched.

Definition pool_init : Pool :=
  {| idx := 0;
     out := [];
     workers := replicate DETAILS_CONCURRENCY Ready;
     claimed := [] |}.

Definition is_finished (st : WorkerState) : bool :=
  match st with Finished => true | _ => false end.

(** [Promise.all(workers)] has resolved. *)
Definition all_finished (p : Pool) : bool := forallb is_finished (workers p).

(** The array in which every input record has been replaced, in place, by
    its enrichment. *)
Definition enriched (all : list Row) (outcome : nat → EvalOutcome)
  : list (option Row) :=
  imap (fun i base => Some (scrapeDetailsViaApi (outcome i) base)) all.

(** *** A scripted page, for concrete runs *)

(** The document as a function of the number of clicks on the next control
    and of the polling intervals elapsed since the last click. *)
Record Script := {
  script_dom : nat → nat → Dom;
  script_polls : N → nat;
}.

Definition scripted (sc : Script) : Browser (nat * nat) := {|
  read_dom s := script_dom sc s.1 s.2;
  selector_present _ s := bool_decide (dom_rows (script_dom sc s.1 s.2) ≠ []);
  tick s := (s.1, S s.2);
  click_next s := (S s.1, O);
  polls_within := script_polls sc;
|}.

(** *** Specification vocabulary *)

(** [h] contains [a]: some text, then [a], then some text. *)
Definition contains (h a : string) : Prop :=
  ∃ p q : string, h = p +:+ a +:+ q.

(** The page signature: first-row identifier, first-row text and page
    indicator, as the wait predicate reads them. *)
Definition signature (d : Dom) : string * string * string :=
  (nowId d, first_row_text d, nowPage d).

(** A column index that names no cell of [tds]. *)
Definition unresolved (tds : list string) (c : Z) : Prop :=
  c = -1 ∨ Z.of_nat (length tds) ≤ c.

(** The mapped fields: how each is resolved and where it is stored. *)
Definition mapped_fields : list ((ColIdx → Z) * (Row → string)) :=
  [(col_contract_number, contract_number);
   (col_contract_title, contract_title);
   (col_open_date, open_date);
   (col_deadline_date, deadline_date);
   (col_agency_code, agency_code);
   (col_unspc, unspc)].

(** What a deduplication pass started from the set [seen] leaves behind:
    truthy keys, none of them in [seen], no key twice. *)
Definition fresh_keys {A} (keyFn : A → string) (seen : gset string)
    (l : list A) : Prop :=
  Forall (fun x => truthy (keyFn x) = true ∧ keyFn x ∉ seen) l
  ∧ NoDup (keyFn <$> l).

(** [walk_reaches] relates the start of one loop iteration (pages left,
    accumulated records, seen keys, page state) to the start of a later
    one: every iteration in between scraped its page, stayed below
    [maxItems] and advanced successfully. *)
Inductive walk_reaches {W} `{Browser W} (agencyMap : gmap string string)
    (maxItems : nat)
  : nat → list Row → gset string → W
    → nat → list Row → gset string → W → Prop :=
| walk_reaches_here n all seen s :
    walk_reaches agencyMap maxItems n all seen s n all seen s
| walk_reaches_next n all seen s rows s1 s2 m all' seen' s' :
    visit_page s = Ok (rows, s1) →
    (length (add_new agencyMap rows all seen).1 < maxItems)%nat →
    findAndClickNext s1 = Ok (true, s2) →
    walk_reaches agencyMap maxItems
      n (add_new agencyMap rows all seen).1 (add_new agencyMap rows all seen).2 s2
      m all' seen' s' →
    walk_reaches agencyMap maxItems (S n) all seen s m all' seen' s'.

(** *** Shapes of whitespace *)

(** Texts in the ASCII range.  On these the whitespace class [is_ws], the
    length in characters and the lower-casing of this development are those
    of the JavaScript operations. *)
Definition ascii_char (c : ascii) : bool := (nat_of_ascii c <? 128)%nat.

Fixpoint ascii_text (s : string) : bool :=
  match s with
  | EmptyString => true
  | String c rest => ascii_char c && ascii_text rest
  end.

Definition ascii_tr (tr : Tr) : bool :=
  ascii_text (default "" (tr_id tr))
  && ascii_text (tr_innerText tr)
  && forallb ascii_text (tr_tds tr).

(** A document all of whose texts are in the ASCII range. *)
Definition ascii_dom (d : Dom) : bool :=
  forallb ascii_text (dom_ths d)
  && forallb ascii_tr (dom_rows d)
  && ascii_text (default "" (dom_pg_input d)).


(** Every whitespace character of [s] is a space that does not follow
    another whitespace character; [prev_ws] tells whether the character
    before [s] was whitespace. *)
Fixpoint spaced (prev_ws : bool) (s : string) : bool :=
  match s with
  | EmptyString => true
  | String c rest =>
      if is_ws c
      then Ascii.eqb c " " && negb prev_ws && spaced true rest
      else spaced false rest
  end.

Definition starts_ws (s : string) : bool :=
  match s with
  | EmptyString => false
  | String c _ => is_ws c
  end.

Fixpoint ends_ws (s : string) : bool :=
  match s with
  | EmptyString => false
  | String c EmptyString => is_ws c
  | String _ rest => ends_ws rest
  end.

(** A whitespace-normalized text: single spaces only, none at either
    end. *)
Definition tidy (s : string) : bool :=
  spaced false s && negb (starts_ws s) && negb (ends_ws s).

(** [s] has a character that is not whitespace. *)
Fixpoint has_ink (s : string) : bool :=
  match s with
  | EmptyString => false
  | String c rest => negb (is_ws c) || has_ink rest
  end.

(** *** Shapes of walked records *)

(** A row as [run] pushes it on [all]: with its joined agency name. *)
Definition join_agency (agencyMap : gmap string string) (r : Row) : Row :=
  with_agency_full r (agency_lookup agencyMap (agency_code r)).

(** What every record collected by the walk looks like before enrichment. *)
Record listing_ok (r : Row) : Prop := {
  ok_kept : contract_number r ≠ "" ∨ contract_title r ≠ "";
  ok_number : tidy (contract_number r) = true;
  ok_title : tidy (contract_title r) = true;
  ok_open : tidy (open_date r) = true;
  ok_deadline : tidy (deadline_date r) = true;
  ok_agency : tidy (agency_code r) = true;
  ok_unspc : tidy (unspc r) = true;
  ok_link :
    bookmarkable_link_url r
    = normalize (if truthy (id r) then detail_template +:+ id r else "");
  ok_email : contact_email r = "";
  ok_files : files r = [];
  ok_error : _detail_error r = None;
}.

(** *** Files and email of a fragment (the in-page function of
    [scrapeDetailsViaApi]) *)

(** An [a[href]] element of a parsed fragment: its [textContent], its
    [aria-label] attribute ([None] when missing) and its [href]
    attribute. *)
Record Anchor := {
  a_textContent : string;
  a_aria_label : option string;
  a_href : string;
}.

(** The [{ title, url }] objects built from the anchors. *)
Record Link := { link_title : string; link_url : string }.

(** [abs(href)]: [resolve] stands for [new URL(href, location.href)],
    [None] when the constructor throws. *)
Definition abs (resolve : string → option string) (href : string) : string :=
  match resolve href with
  | Some u => u
  | None => or_else href ""
  end.

Definition link_of (resolve : string → option string) (a : Anchor) : Link :=
  {| link_title :=
       or_else (trim (or_else (a_textContent a) ""))
         (or_else (trim (or_else (default "" (a_aria_label a)) "")) "File");
     link_url := abs resolve (or_else (a_href a) "") |}.

(** [s] ends with [suffix]. *)
Fixpoint ends_with (s suffix : string) : bool :=
  String.eqb s suffix
  || match s with
     | EmptyString => false
     | String _ rest => ends_with rest suffix
     end.

Definition doc_extensions : list string :=
  ["pdf"; "doc"; "docx"; "xls"; "xlsx"; "zip"; "csv"; "txt"].

(** [/\.(pdf|doc|docx|xls|xlsx|zip|csv|txt)$/i.test(url)]. *)
Definition has_doc_extension (url : string) : bool :=
  existsb (fun ext => ends_with (toLowerCase url) ("." +:+ ext))
          doc_extensions.

(** The filter applied to the links. *)
Definition keep_link (x : Link) : bool :=
  truthy (link_url x)
  && (has_doc_extension (link_url x)
      || includes (toLowerCase (link_url x)) "download"
      || includes (toLowerCase (link_url x)) "document"
      || includes (toLowerCase (link_url x)) "attachment"
      || includes (toLowerCase (link_url x)) "amend").

(** [parseHtml(html).links]. *)
Definition links_of (resolve : string → option string)
    (anchors : list Anchor) : list Link :=
  filter (fun x => keep_link x = true) (map (link_of resolve) anchors).

(** The key of the merge loop: [`${item.title}@@${item.url}`]. *)
Definition file_key (item : Link) : string :=
  link_title item +:+ "@@" +:+ link_url item.

Definition file_of_link (item : Link) : FileEntry :=
  {| title := link_title item; Url := link_url item |}.

(** The merge loop over [[...parsed.links, ...docsParsed.links]]. *)
Fixpoint merge_files_loop (items : list Link) (seen : gset string)
    (files : list FileEntry) : list FileEntry :=
  match items with
  | [] => files
  | item :: rest =>
      let key := file_key item in
      if bool_decide (key ∈ seen) then merge_files_loop rest seen files
      else merge_files_loop rest ({[key]} ∪ seen)
             (files ++ [file_of_link item])
  end.

Definition merge_files (links docs_links : list Link) : list FileEntry :=
  merge_files_loop (links ++ docs_links) ∅ [].

(** [doc.querySelector("a[href^='mailto:']")]. *)
Definition mail_anchor (anchors : list Anchor) : option Anchor :=
  List.find (fun a => starts_with "mailto:" (a_href a)) anchors.

Fixpoint drop_chars (n : nat) (s : string) : string :=
  match n, s with
  | O, _ => s
  | S n', String _ rest => drop_chars n' rest
  | S _, EmptyString => EmptyString
  end.

(** [s.replace(/^mailto:/i, "")]. *)
Definition strip_mailto (s : string) : string :=
  if starts_with "mailto:" (toLowerCase s) then drop_chars 7 s else s.

(** [s.split("?")[0]]. *)
Fixpoint before_question (s : string) : string :=
  match s with
  | EmptyString => EmptyString
  | String c rest =>
      if Ascii.eqb c "?" then EmptyString else String c (before_question rest)
  end.

(** The email taken from the [mailto:] anchor. *)
Definition email_of_mailto (href : string) : string :=
  trim (before_question (strip_mailto (or_else href ""))).

Fixpoint has_char (c : ascii) (s : string) : bool :=
  match s with
  | EmptyString => false
  | String d rest => Ascii.eqb d c || has_char c rest
  end.

(** *** The lookup join ([buildAgencyMap]) *)

(** An [a] element of the start page: its [textContent] and its resolved
    [href] property (empty when the element has no [href]). *)
Record HomeAnchor := { anchor_text : string; anchor_href : string }.

(** A [table]: the [innerText] of its [th] cells and, for each [tbody tr],
    the [innerText] of its [td] cells. *)
Record Table := {
  table_ths : list string;
  table_trs : list (list string);
}.

Record AgencyRow := { code : string; name : string }.

(** The href of the first anchor whose text mentions "agency info", [None]
    for [null]. *)
Definition agency_info_href (anchors : list HomeAnchor) : option string :=
  anchor_href
    <$> List.find
          (fun x => includes (toLowerCase (or_else (anchor_text x) ""))
                             "agency info")
          anchors.

Definition is_agency_table (t : Table) : bool :=
  let ths := map (fun h => toLowerCase (or_else h "")) (table_ths t) in
  existsb (fun h => includes h "code") ths
  && existsb (fun h => includes h "agency") ths.

(** [tables.find(...) || tables[0]]. *)
Definition best_table (tables : list Table) : option Table :=
  match List.find is_agency_table tables with
  | Some t => Some t
  | None => head tables
  end.

Definition agency_row_of (tds_raw : list string) : AgencyRow :=
  let tds := map (fun td => trim (or_else td "")) tds_raw in
  {| code := or_else (default "" (tds !! O)) "";
     name := or_else (default "" (tds !! 1%nat)) "" |}.

(** The rows returned by the second [page.evaluate]. *)
Definition agency_rows (tables : list Table) : list AgencyRow :=
  match best_table tables with
  | None => []
  | Some best =>
      filter (fun r => truthy (code r) && truthy (name r) = true)
             (map agency_row_of (table_trs best))
  end.

(** [for (const r of rows) map.set(normalize(r.code), normalize(r.name))]. *)
Definition agency_map_of (rows : list AgencyRow) : gmap string string :=
  foldl (fun m r => <[normalize (code r) := normalize (name r)]> m) ∅ rows.

(** The two navigations of [buildAgencyMap]: the start page's anchors and
    the tables of the page behind a link; either may fail. *)
Record AgencySite := {
  site_home : Result (list HomeAnchor);
  site_page : string → Result (list Table);
}.

Definition buildAgencyMap (site : AgencySite) : Result (gmap string string) :=
  match site_home site with
  | Throw e => Throw e
  | Ok anchors =>
      match agency_info_href anchors with
      | None => Ok ∅
      | Some href =>
          if truthy href
          then match site_page site href with
               | Throw e => Throw e
               | Ok tables => Ok (agency_map_of (agency_rows tables))
               end
          else Ok ∅
      end
  end.

(** A URL that the link filter takes for a document: lower-cased, it ends
    in a dot and a listed extension, or contains one of the markers. *)
Definition document_like (url : string) : Prop :=
  (∃ ext p, ext ∈ doc_extensions ∧ toLowerCase url = p +:+ "." +:+ ext)
  ∨ (∃ marker, marker ∈ ["download"; "document"; "attachment"; "amend"]
               ∧ contains (toLowerCase url) marker).

(** *** Page histories *)

(** [page_trace c s s']: the page state [s'] is reached from [s] by letting
    polling intervals pass and by clicking the next control [c] times. *)
Inductive page_trace {W} `{Browser W} : nat → W → W → Prop :=
| page_trace_here s : page_trace O s s
| page_trace_tick c s s' : page_trace c (tick s) s' → page_trace c s s'
| page_trace_click c s s' :
    page_trace c (click_next s) s' → page_trace (S c) s s'.

(** *** More vocabulary for the worker pool *)

(** Two records that agree on every field that the listing provides. *)
Definition same_listing (a b : Row) : Prop :=
  id a = id b
  ∧ contract_number a = contract_number b
  ∧ contract_title a = contract_title b
  ∧ open_date a = open_date b
  ∧ deadline_date a = deadline_date b
  ∧ agency_code a = agency_code b
  ∧ unspc a = unspc b
  ∧ bookmarkable_link_url a = bookmarkable_link_url b
  ∧ agency_full a = agency_full b.

(** The number of steps of a schedule that find their worker still at
    work, and so change the pool. *)
Fixpoint effective_steps (all : list Row) (outcome : nat → EvalOutcome)
    (sched : list nat) (p : Pool) : nat :=
  match sched with
  | [] => O
  | w :: rest =>
      (match workers p !! w with
       | Some Ready | Some (Awaiting _ _) => 1
       | Some Finished | None => 0
       end
       + effective_steps all outcome rest (pool_step all outcome w p))%nat
  end.

(** *** Worker-pool invariant and progress measure *)

(** What holds of the pool after any sequence of steps. *)
Record pool_inv (all : list Row) (outcome : nat → EvalOutcome) (p : Pool)
  : Prop := {
  inv_workers : length (workers p) = DETAILS_CONCURRENCY;
  inv_cursor : (idx p ≤ length all)%nat;
  inv_claimed : (claimed p).*2 = seq 0 (idx p);
  inv_length : (length (out p) ≤ idx p)%nat;
  inv_finished : ∀ w,
    workers p !! w = Some Finished → (length all ≤ idx p)%nat;
  inv_awaiting : ∀ w i b,
    workers p !! w = Some (Awaiting i b) →
    (i < idx p)%nat ∧ all !! i = Some b ∧ js_get (out p) i = None;
  inv_single : ∀ w w' i b b',
    workers p !! w = Some (Awaiting i b) →
    workers p !! w' = Some (Awaiting i b') → w = w';
  inv_covered : ∀ i, (i < idx p)%nat →
    (∃ w b, workers p !! w = Some (Awaiting i b))
    ∨ (∃ b, all !! i = Some b
            ∧ js_get (out p) i = Some (scrapeDetailsViaApi (outcome i) b));
  inv_written : ∀ i r, js_get (out p) i = Some r →
    ∃ b, all !! i = Some b ∧ r = scrapeDetailsViaApi (outcome i) b;
}.

(** The work a worker still owes before it returns, not counting the
    records nobody has claimed yet. *)
Definition worker_weight (st : WorkerState) : nat :=
  match st with Ready => 2 | Awaiting _ _ => 3 | Finished => 0 end.

Definition pool_measure (all : list Row) (p : Pool) : nat :=
  2 * (length all - idx p) + sum_list_with worker_weight (workers p).

(** Two records that agree on every field other than [_detail_error]. *)
Definition same_except_detail_error (a b : Row) : Prop :=
  id a = id b
  ∧ contract_number a = contract_number b
  ∧ contract_title a = contract_title b
  ∧ open_date a = open_date b
  ∧ deadline_date a = deadline_date b
  ∧ agency_code a = agency_code b
  ∧ unspc a = unspc b
  ∧ contact_email a = contact_email b
  ∧ files a = files b
  ∧ bookmarkable_link_url a = bookmarkable_link_url b
  ∧ agency_full a = agency_full b.

(** *** Concrete inputs *)

(** Three deduplicated records, the last one without identifier, and how
    the detail request of each settles: the second one fails. *)
Definition listed (rid number : string) : Row :=
  {| id := rid; contract_number := number; contract_title := "Paving";
     open_date := ""; deadline_date := ""; agency_code := "DOT"; unspc := "";
     contact_email := ""; files := [];
     bookmarkable_link_url :=
       if truthy rid then detail_template +:+ rid else "";
     agency_full := ""; _detail_error := None |}.

Definition three_records : list Row :=
  [listed "a1" "B-1"; listed "a2" "B-2"; listed "" "B-3"].

Definition fetch_failure : JsThrown :=
  ErrorObject "Error" "Fetch failed 500 for /Bids/GetBidDetail?id=a2".

Definition three_outcomes (i : nat) : EvalOutcome :=
  match i with
  | 1%nat => Rejected fetch_failure
  | _ => Resolved {| detail_contact_email := "buyer@delaware.gov";
                     detail_files := [ {| title := "Specs";
                                          Url := "https://mmp.delaware.gov/x.pdf" |} ] |}
  end.

(** Workers 0, 1, 2 claim one record each, worker 3 finds nothing left, and
    the three awaits complete in the reverse order of the claims. *)
Definition reversed_schedule : list nat :=
  [0; 1; 2; 3; 2; 1; 0; 0; 1; 2]%nat.

(** A two-cell row against a mapping that places four fields, two of them
    past the end of the row. *)
Definition short_row : Tr :=
  {| tr_id := Some "41"; tr_innerText := "B-7 Paving";
     tr_tds := ["B-7"; "Paving"] |}.

Definition wide_mapping : ColIdx :=
  {| col_contract_number := 0; col_contract_title := 1;
     col_open_date := 2; col_deadline_date := 3;
     col_agency_code := -1; col_unspc := -1 |}.

(** A row without an [id] attribute, under a header that only has a title
    column. *)
Definition title_only_dom : Dom :=
  {| dom_ths := ["Title"];
     dom_rows := [ {| tr_id := None;
                      tr_innerText := "Road resurfacing";
                      tr_tds := ["Road resurfacing"] |} ];
     dom_next := None;
     dom_pg_input := None |}.

Definition title_only_row : Row :=
  {| id := ""; contract_number := ""; contract_title := "Road resurfacing";
     open_date := ""; deadline_date := ""; agency_code := ""; unspc := "";
     contact_email := ""; files := []; bookmarkable_link_url := "";
     agency_full := ""; _detail_error := None |}.

(** A grid that does not react to the next control: the same document
    whatever is clicked and however long one waits. *)
Definition frozen_dom : Dom :=
  {| dom_ths := ["Contract Number"; "Title"];
     dom_rows := [ {| tr_id := Some "17";
                      tr_innerText := "B-17 Paving of Route 1";
                      tr_tds := ["B-17"; "Paving of Route 1"] |} ];
     dom_next := Some ["ui-pg-button"];
     dom_pg_input := Some "1" |}.

Definition frozen_page : Script :=
  {| script_dom := fun _ _ => frozen_dom; script_polls := fun _ => 3%nat |}.




Definition first_page_record : Row :=
  {| id := "17"; contract_number := "B-17";
     contract_title := "Paving of Route 1";
     open_date := ""; deadline_date := ""; agency_code := ""; unspc := "";
     contact_email := ""; files := [];
     bookmarkable_link_url := "/Bids/GetBidDetail?id=17";
     agency_full := ""; _detail_error := None |}.


(** A single page, without next control, that lists the title-only row. *)
Definition title_only_page : Script :=
  {| script_dom := fun _ _ => title_only_dom;
     script_polls := fun _ => 3%nat |}.

(** A single page with three rows. *)
Definition three_row_dom : Dom :=
  {| dom_ths := ["Contract Number"; "Title"];
     dom_rows :=
       [ {| tr_id := Some "1"; tr_innerText := "B-1 Paving of Route 1";
            tr_tds := ["B-1"; "Paving of Route 1"] |};
         {| tr_id := Some "2"; tr_innerText := "B-2 Paving of Route 2";
            tr_tds := ["B-2"; "Paving of Route 2"] |};
         {| tr_id := Some "3"; tr_innerText := "B-3 Paving of Route 3";
            tr_tds := ["B-3"; "Paving of Route 3"] |} ];
     dom_next := Some ["ui-pg-button"];
     dom_pg_input := Some "1" |}.

Definition three_row_page : Script :=
  {| script_dom := fun _ _ => three_row_dom;
     script_polls := fun _ => 3%nat |}.

Definition three_row_result : list Row :=
  [ {| id := "1"; contract_number := "B-1";
       contract_title := "Paving of Route 1";
       open_date := ""; deadline_date := ""; agency_code := ""; unspc := "";
       contact_email := ""; files := [];
       bookmarkable_link_url := "/Bids/GetBidDetail?id=1";
       agency_full := ""; _detail_error := None |};
    {| id := "2"; contract_number := "B-2";
       contract_title := "Paving of Route 2";
       open_date := ""; deadline_date := ""; agency_code := ""; unspc := "";
       contact_email := ""; files := [];
       bookmarkable_link_url := "/Bids/GetBidDetail?id=2";
       agency_full := ""; _detail_error := None |};
    {| id := "3"; contract_number := "B-3";
       contract_title := "Paving of Route 3";
       open_date := ""; deadline_date := ""; agency_code := ""; unspc := "";
       contact_email := ""; files := [];
       bookmarkable_link_url := "/Bids/GetBidDetail?id=3";
       agency_full := ""; _detail_error := None |} ].

(** ** Part II: properties *)

(** *** Strings *)

Lemma truthy_true_iff (s : string) : truthy s = true ↔ s ≠ "".
Proof. destruct s; simpl; split; congruence. Qed.

Lemma truthy_false_iff (s : string) : truthy s = false ↔ s = "".
Proof. destruct s; simpl; split; congruence. Qed.

Lemma or_else_empty_r (s : string) : or_else s "" = s.
Proof. by destruct s. Qed.

Lemma starts_with_spec (a h : string) :
  starts_with a h = true ↔ ∃ q, h = a +:+ q.
Proof.
  revert h. induction a as [|x a IH]; intros h; simpl.
  - split; [intros _; by exists h | done].
  - destruct h as [|y h].
    + split; [done | intros [q Hq]; discriminate].
    + destruct (Ascii.eqb_spec x y) as [->|Hne].
      * rewrite IH. split; intros [q Hq]; exists q; simpl in *; congruence.
      * split; [done | intros [q Hq]; simpl in Hq; congruence].
Qed.

Lemma includes_spec (h a : string) : includes h a = true ↔ contains h a.
Proof.
  unfold contains. induction h as [|c h IH].
  - simpl. rewrite orb_false_r, starts_with_spec. split.
    + intros [q Hq]. by exists "", q.
    + intros (p & q & Hpq). destruct p; [by exists q | discriminate].
  - cbn [includes]. rewrite orb_true_iff, starts_with_spec, IH. split.
    + intros [[q Hq] | (p & q & Hpq)].
      * by exists "", q.
      * exists (String c p), q. simpl. by rewrite Hpq.
    + intros (p & q & Hpq). destruct p as [|c' p].
      * left. by exists q.
      * right. exists p, q. simpl in Hpq. congruence.
Qed.

Lemma includes_false_iff (h a : string) :
  includes h a = false ↔ ¬ contains h a.
Proof. rewrite <- includes_spec. by destruct (includes h a). Qed.

(** *** Field resolver *)

Lemma findIndex_from_spec {A} (p : A → bool) (arr : list A) (i : Z) :
  (findIndex_from p i arr = -1 ∧ ∀ x, x ∈ arr → p x = false)
  ∨ (∃ (n : nat) (x : A),
        findIndex_from p i arr = i + Z.of_nat n
        ∧ arr !! n = Some x ∧ p x = true
        ∧ ∀ (j : nat) (y : A), (j < n)%nat → arr !! j = Some y → p y = false).
Proof.
  revert i. induction arr as [|x arr IH]; intros i; simpl.
  - left. split; [done | intros x Hx; by apply elem_of_nil in Hx].
  - destruct (p x) eqn:Hpx.
    + right. exists O, x. repeat split; [lia | done | intros; lia].
    + destruct (IH (i + 1)) as [[Hm Hall] | (n & y & Hr & Hn & Hy & Hlt)].
      * left. split; [done |]. intros z Hz.
        apply elem_of_cons in Hz as [-> | Hz]; auto.
      * right. exists (S n), y. repeat split; [lia | done | done |].
        intros [|j] z Hj Hz; simpl in Hz; [congruence |].
        apply (Hlt j); [lia | done].
Qed.

Lemma existsb_includes_true (h : string) (aliases : list string) :
  existsb (fun a => includes h a) aliases = true
  ↔ ∃ a, a ∈ aliases ∧ contains h a.
Proof.
  rewrite existsb_exists. split; intros (a & Ha & Hc); exists a.
  - by rewrite list_elem_of_In, <- includes_spec.
  - by rewrite <- list_elem_of_In, includes_spec.
Qed.

Lemma existsb_includes_false (h : string) (aliases : list string) :
  existsb (fun a => includes h a) aliases = false
  ↔ ∀ a, a ∈ aliases → ¬ contains h a.
Proof.
  rewrite <- not_true_iff_false, existsb_includes_true. split.
  - intros Hn a Ha Hc. apply Hn. eauto.
  - intros Hall (a & Ha & Hc). exact (Hall a Ha Hc).
Qed.

(** C6. For every list of header labels and every alias list, [findCol]
    over the normalized lower-cased headers returns [-1] exactly when no
    header contains any alias, and otherwise the index of the earliest
    header that contains one of the aliases. *)
Theorem findCol_earliest_match (headers aliases : list string) :
  let ths := map lower headers in
  (findCol ths aliases = -1
   ∧ ∀ h a, h ∈ ths → a ∈ aliases → ¬ contains h a)
  ∨ (∃ (i : nat) (h a : string),
        findCol ths aliases = Z.of_nat i
        ∧ ths !! i = Some h ∧ a ∈ aliases ∧ contains h a
        ∧ ∀ (j : nat) (h' a' : string),
            (j < i)%nat → ths !! j = Some h' → a' ∈ aliases
            → ¬ contains h' a').
Proof.
  intros ths. unfold findCol, findIndex.
  destruct (findIndex_from_spec
              (fun h => existsb (fun a => includes h a) aliases) ths 0)
    as [[Hm Hall] | (n & h & Hr & Hn & Hh & Hlt)].
  - left. split; [done |]. intros h a Hh Ha.
    specialize (Hall h Hh). rewrite existsb_includes_false in Hall. auto.
  - right. apply existsb_includes_true in Hh as (a & Ha & Hc).
    exists n, h, a. repeat split; [lia | done.. |].
    intros j h' a' Hj Hj' Ha'. specialize (Hlt j h' Hj Hj').
    rewrite existsb_includes_false in Hlt. auto.
Qed.

(** The resolver on the headers ["Bid #"], ["Title"], ["Open Date"] with
    the aliases ["bid"] and ["#"]. *)
Example findCol_bid_header :
  findCol (map lower ["Bid #"; "Title"; "Open Date"]) ["bid"; "#"] = 0.
Proof. reflexivity. Qed.

Example findCol_no_header :
  findCol (map lower ["Bid #"; "Title"; "Open Date"]) ["agency"; "dept"] = -1.
Proof. reflexivity. Qed.

(** *** Row extractor *)

Lemma get_unresolved (tds : list string) (c : Z) :
  unresolved tds c → get tds c = "".
Proof.
  unfold unresolved, get. intros [-> | Hge]; [done |].
  destruct (Z.leb_spec 0 c); [| done].
  rewrite (lookup_ge_None_2 tds (Z.to_nat c)); [done | lia].
Qed.

Lemma get_in_range (tds : list string) (n : nat) (s : string) :
  tds !! n = Some s → get tds (Z.of_nat n) = s.
Proof.
  intros Hn. unfold get. destruct (Z.leb_spec 0 (Z.of_nat n)); [| lia].
  by rewrite Nat2Z.id, Hn, or_else_empty_r.
Qed.

(** C7. [extract_row] is a total function of the row and the column
    mapping: no input makes it fail.  Every mapped field whose resolved
    index is [-1] or lies past the row's cells is the empty string, in
    particular when the row is shorter than the mapping expects. *)
Theorem extract_row_unresolved_field (ci : ColIdx) (tr : Tr)
    (col : ColIdx → Z) (field : Row → string) :
  (col, field) ∈ mapped_fields →
  unresolved (tr_tds tr) (col ci) →
  field (extract_row ci tr) = "".
Proof.
  intros Hin Hun.
  assert (Hg : get (map normalize (tr_tds tr)) (col ci) = "").
  { apply get_unresolved. unfold unresolved in *. by rewrite length_map. }
  unfold mapped_fields in Hin.
  repeat (apply elem_of_cons in Hin as [Heq | Hin];
          [injection Heq as -> ->; exact Hg |]).
  by apply elem_of_nil in Hin.
Qed.

Lemma extract_row_unresolved_field_witness :
  deadline_date (extract_row wide_mapping short_row) = ""
  ∧ contract_number (extract_row wide_mapping short_row) = "B-7".
Proof.
  split; [| reflexivity].
  apply (extract_row_unresolved_field wide_mapping short_row
           col_deadline_date deadline_date).
  - unfold mapped_fields. do 3 apply list_elem_of_further.
    apply list_elem_of_here.
  - right. simpl. lia.
Defined.

(** C8, as stated, fails: for a row without identifier the link field holds
    the empty string, and the serialized record shows [""] where the claim
    expects [null]. *)
Lemma detail_link_empty_id_not_null :
  scrapePageRows title_only_dom = [title_only_row]
  ∧ id title_only_row = ""
  ∧ bookmarkable_link_url title_only_row = ""
  ∧ includes (JSON_stringify title_only_row)
             (json_member "bookmarkable_link_url" (json_string "")) = true
  ∧ includes (JSON_stringify title_only_row)
             (json_member "bookmarkable_link_url" "null") = false.
Proof. repeat split; vm_compute; reflexivity. Qed.

(** C8, amended. The link of an extracted row is the fixed template
    followed by the row's identifier; when the identifier is empty the link
    is the empty string. *)
Theorem detail_link_from_template (ci : ColIdx) (tr : Tr) :
  let r := extract_row ci tr in
  (id r = "" → bookmarkable_link_url r = "")
  ∧ (id r ≠ "" → bookmarkable_link_url r = "/Bids/GetBidDetail?id=" +:+ id r).
Proof.
  simpl. destruct (or_else (default "" (tr_id tr)) "") eqn:E; simpl.
  - split; [done | congruence].
  - split; [discriminate | done].
Qed.

Lemma detail_link_from_template_witness :
  bookmarkable_link_url (extract_row wide_mapping short_row)
  = "/Bids/GetBidDetail?id=41".
Proof.
  apply (proj2 (detail_link_from_template wide_mapping short_row)).
  discriminate.
Defined.

(** *** Deduplication *)

Section UniqBy.
Context {A : Type} (keyFn : A → string).

Lemma uniqBy_loop_out (arr : list A) (seen : gset string) (out : list A) :
  uniqBy_loop keyFn arr seen out = out ++ uniqBy_loop keyFn arr seen [].
Proof.
  revert seen out. induction arr as [|x arr IH]; intros seen out; simpl.
  - by rewrite app_nil_r.
  - destruct (negb (truthy (keyFn x)) || bool_decide (keyFn x ∈ seen)).
    + apply IH.
    + rewrite IH, (IH _ [x]). by rewrite <- app_assoc.
Qed.

Lemma uniqBy_loop_fresh (arr : list A) (seen : gset string) :
  fresh_keys keyFn seen (uniqBy_loop keyFn arr seen []).
Proof.
  revert seen. induction arr as [|x arr IH]; intros seen; simpl.
  - split; [constructor | constructor].
  - destruct (truthy (keyFn x)) eqn:Ht; simpl; [| apply IH].
    case_bool_decide as Hin; [apply IH |].
    rewrite uniqBy_loop_out. simpl.
    destruct (IH ({[keyFn x]} ∪ seen)) as [Hall Hnd]. split.
    + constructor; [done |].
      eapply Forall_impl; [exact Hall |]. simpl. intros y [Hy Hn].
      split; [done |]. intros Hs. apply Hn, elem_of_union. by right.
    + rewrite fmap_cons. constructor; [| done].
      intros Hx. apply list_elem_of_fmap in Hx as (y & Hk & Hy).
      rewrite Forall_forall in Hall. destruct (Hall y Hy) as [_ Hn].
      rewrite <- Hk in Hn. apply Hn, elem_of_union. left.
      by apply elem_of_singleton.
Qed.

Lemma uniqBy_loop_fixed (l : list A) (seen : gset string) :
  fresh_keys keyFn seen l → uniqBy_loop keyFn l seen [] = l.
Proof.
  revert seen. induction l as [|x l IH]; intros seen [Hall Hnd]; [done |].
  apply Forall_cons in Hall as [[Ht Hn] Hall].
  rewrite fmap_cons in Hnd. apply NoDup_cons in Hnd as [Hx Hnd].
  simpl. rewrite Ht. simpl. rewrite bool_decide_eq_false_2 by done.
  rewrite uniqBy_loop_out. simpl. f_equal. apply IH. split; [| done].
  rewrite Forall_forall in Hall |- *. intros y Hy.
  destruct (Hall y Hy) as [Hty Hny]. split; [done |].
  assert (keyFn y ≠ keyFn x).
  { intros Heq. apply Hx. rewrite <- Heq. apply list_elem_of_fmap. eauto. }
  rewrite elem_of_union, elem_of_singleton. tauto.
Qed.

Lemma uniqBy_loop_sublist (arr : list A) (seen : gset string) :
  uniqBy_loop keyFn arr seen [] `sublist_of` arr.
Proof.
  revert seen. induction arr as [|x arr IH]; intros seen; simpl.
  - constructor.
  - destruct (negb (truthy (keyFn x)) || bool_decide (keyFn x ∈ seen)).
    + apply sublist_cons, IH.
    + rewrite uniqBy_loop_out. simpl. apply sublist_skip, IH.
Qed.

(** The output keeps the input's order: it is the input with some
    elements left out. *)
Lemma uniqBy_sublist (arr : list A) : uniqBy arr keyFn `sublist_of` arr.
Proof. apply uniqBy_loop_sublist. Qed.

Lemma uniqBy_length (arr : list A) :
  (length (uniqBy arr keyFn) ≤ length arr)%nat.
Proof. apply sublist_length, uniqBy_sublist. Qed.

Lemma uniqBy_fresh (arr : list A) : fresh_keys keyFn ∅ (uniqBy arr keyFn).
Proof. apply uniqBy_loop_fresh. Qed.
End UniqBy.

(** C9. Deduplication is idempotent: a second [uniqBy] with the same key
    function returns the list the first one produced, same elements in the
    same order. *)
Theorem uniqBy_idempotent {A : Type} (keyFn : A → string) (arr : list A) :
  uniqBy (uniqBy arr keyFn) keyFn = uniqBy arr keyFn.
Proof.
  unfold uniqBy at 1. apply uniqBy_loop_fixed, uniqBy_loop_fresh.
Qed.

(** The final pass of [run], twice over. *)
Corollary final_dedup_idempotent (all : list Row) :
  uniqBy (uniqBy all final_key) final_key = uniqBy all final_key.
Proof. exact (uniqBy_loop_fixed _ _ _ (uniqBy_loop_fresh final_key all ∅)). Qed.

(** *** Arrays with holes *)

Section JsArray.
Context {A : Type}.
Implicit Types (arr : list (option A)) (i j : nat) (v : A).
Local Open Scope nat_scope.

Lemma js_set_length arr i v :
  length (js_set arr i v) = Nat.max (length arr) (S i).
Proof.
  unfold js_set. case_decide.
  - rewrite length_insert. lia.
  - rewrite !length_app, length_replicate. simpl. lia.
Qed.

Lemma js_get_set_eq arr i v : js_get (js_set arr i v) i = Some v.
Proof.
  unfold js_get, js_set. case_decide.
  - by rewrite list_lookup_insert_eq.
  - rewrite lookup_app_r by lia.
    rewrite lookup_app_r by (rewrite length_replicate; lia).
    rewrite length_replicate, Nat.sub_diag. done.
Qed.

Lemma js_get_set_ne arr i j v :
  i ≠ j → js_get (js_set arr i v) j = js_get arr j.
Proof.
  intros Hne. unfold js_get, js_set. case_decide as Hlt.
  - by rewrite list_lookup_insert_ne.
  - destruct (decide (j < length arr)) as [Hj | Hj].
    + by rewrite lookup_app_l.
    + rewrite (lookup_ge_None_2 arr j) by lia.
      rewrite lookup_app_r by lia.
      destruct (decide (j - length arr < i - length arr)) as [Hp | Hp].
      * rewrite lookup_app_l by (rewrite length_replicate; lia).
        by rewrite lookup_replicate_2.
      * rewrite lookup_app_r by (rewrite length_replicate; lia).
        rewrite length_replicate.
        rewrite lookup_ge_None_2; [done | simpl; lia].
Qed.

Lemma js_get_beyond arr i : length arr ≤ i → js_get arr i = None.
Proof. intros Hi. unfold js_get. by rewrite lookup_ge_None_2. Qed.

Lemma js_get_Some arr i v : js_get arr i = Some v ↔ arr !! i = Some (Some v).
Proof.
  unfold js_get. destruct (arr !! i) as [[x|]|]; simpl; split; congruence.
Qed.
End JsArray.

(** *** The worker pool *)

Section PoolSafety.
Variables (all : list Row) (outcome : nat → EvalOutcome).
Local Open Scope nat_scope.

Lemma pool_inv_init : pool_inv all outcome pool_init.
Proof.
  unfold pool_init. split; cbn [idx out workers claimed];
    try done; try apply length_replicate.
  - lia.
  - intros w Hw. apply lookup_replicate_1 in Hw as [? _]. discriminate.
  - intros w i b Hw. apply lookup_replicate_1 in Hw as [? _]. discriminate.
  - intros w w' i b b' Hw. apply lookup_replicate_1 in Hw as [? _].
    discriminate.
  - intros i Hi. lia.
Qed.

(** A worker claims the record under the cursor. *)
Lemma pool_inv_claim (p : Pool) (w : nat) (base : Row) :
  pool_inv all outcome p →
  workers p !! w = Some Ready →
  all !! idx p = Some base →
  pool_inv all outcome
    {| idx := S (idx p); out := out p;
       workers := <[w := Awaiting (idx p) base]> (workers p);
       claimed := claimed p ++ [(w, idx p)] |}.
Proof.
  intros [Hws Hcur Hcl Hlen Hfin Haw Hsingle Hcov Hwr] Hw Hbase.
  pose proof (lookup_lt_Some _ _ _ Hbase) as Hlt.
  split; cbn [idx out workers claimed].
  - by rewrite length_insert.
  - lia.
  - rewrite fmap_app, Hcl, seq_S. done.
  - lia.
  - intros w' Hw'. apply list_lookup_insert_Some in Hw' as [(_ & ? & _) | [_ Hw']];
      [discriminate |].
    specialize (Hfin _ Hw'). lia.
  - intros w' i b Hw'.
    apply list_lookup_insert_Some in Hw' as [(_ & Heq & _) | [_ Hw']].
    + injection Heq as <- <-. split; [lia |]. split; [done |].
      by apply js_get_beyond.
    + destruct (Haw _ _ _ Hw') as (? & ? & ?). split; [lia | done].
  - intros w1 w2 i b b' H1 H2.
    apply list_lookup_insert_Some in H1 as [(<- & E1 & _) | [N1 H1]];
      apply list_lookup_insert_Some in H2 as [(<- & E2 & _) | [N2 H2]].
    + done.
    + injection E1 as <- <-. destruct (Haw _ _ _ H2) as (? & _). lia.
    + injection E2 as <- <-. destruct (Haw _ _ _ H1) as (? & _). lia.
    + by eapply Hsingle.
  - intros i Hi. destruct (decide (i = idx p)) as [-> | Hne].
    + left. exists w, base. apply list_lookup_insert_eq.
      by eapply lookup_lt_Some.
    + destruct (Hcov i ltac:(lia)) as [(w' & b & Hw') | Hdone]; [| by right].
      left. exists w', b. rewrite list_lookup_insert_ne; [done |].
      intros ->. congruence.
  - done.
Qed.

(** A worker finds the cursor at the end and returns. *)
Lemma pool_inv_finish (p : Pool) (w : nat) :
  pool_inv all outcome p →
  workers p !! w = Some Ready →
  all !! idx p = None →
  pool_inv all outcome
    {| idx := idx p; out := out p;
       workers := <[w := Finished]> (workers p);
       claimed := claimed p |}.
Proof.
  intros [Hws Hcur Hcl Hlen Hfin Haw Hsingle Hcov Hwr] Hw Hnone.
  apply lookup_ge_None_1 in Hnone.
  split; cbn [idx out workers claimed]; try done.
  - by rewrite length_insert.
  - intros w' i b Hw'.
    apply list_lookup_insert_Some in Hw' as [(_ & ? & _) | [_ Hw']];
      [discriminate | by eapply Haw].
  - intros w1 w2 i b b' H1 H2.
    apply list_lookup_insert_Some in H1 as [(_ & ? & _) | [_ H1]];
      [discriminate |].
    apply list_lookup_insert_Some in H2 as [(_ & ? & _) | [_ H2]];
      [discriminate |].
    by eapply Hsingle.
  - intros i Hi. destruct (Hcov i Hi) as [(w' & b & Hw') | Hdone];
      [| by right].
    left. exists w', b. rewrite list_lookup_insert_ne; [done |].
    intros ->. congruence.
Qed.

(** A worker resumes after its [await] and stores the result. *)
Lemma pool_inv_resume (p : Pool) (w i : nat) (base : Row) :
  pool_inv all outcome p →
  workers p !! w = Some (Awaiting i base) →
  pool_inv all outcome
    {| idx := idx p;
       out := js_set (out p) i (scrapeDetailsViaApi (outcome i) base);
       workers := <[w := Ready]> (workers p);
       claimed := claimed p |}.
Proof.
  intros [Hws Hcur Hcl Hlen Hfin Haw Hsingle Hcov Hwr] Hw.
  destruct (Haw _ _ _ Hw) as (Hi & Hbase & Hhole).
  split; cbn [idx out workers claimed]; try done.
  - by rewrite length_insert.
  - rewrite js_set_length. lia.
  - intros w' Hw'.
    apply list_lookup_insert_Some in Hw' as [(_ & ? & _) | [_ Hw']];
      [discriminate | by eapply Hfin].
  - intros w' i' b Hw'.
    apply list_lookup_insert_Some in Hw' as [(_ & ? & _) | [Hne Hw']];
      [discriminate |].
    destruct (Haw _ _ _ Hw') as (? & ? & ?). split; [done |].
    split; [done |]. rewrite js_get_set_ne; [done |].
    intros ->. apply Hne. by eapply Hsingle.
  - intros w1 w2 i' b b' H1 H2.
    apply list_lookup_insert_Some in H1 as [(_ & ? & _) | [_ H1]];
      [discriminate |].
    apply list_lookup_insert_Some in H2 as [(_ & ? & _) | [_ H2]];
      [discriminate |].
    by eapply Hsingle.
  - intros i' Hi'. destruct (decide (i' = i)) as [-> | Hne].
    + right. exists base. split; [done |]. apply js_get_set_eq.
    + destruct (Hcov i' Hi') as [(w' & b & Hw') | (b & Hb & Hg)].
      * left. exists w', b. rewrite list_lookup_insert_ne; [done |].
        intros ->. congruence.
      * right. exists b. split; [done |]. by rewrite js_get_set_ne.
  - intros i' r Hr. destruct (decide (i' = i)) as [-> | Hne].
    + rewrite js_get_set_eq in Hr. injection Hr as <-. by exists base.
    + rewrite js_get_set_ne in Hr by done. by apply Hwr.
Qed.

Lemma pool_inv_step (w : nat) (p : Pool) :
  pool_inv all outcome p → pool_inv all outcome (pool_step all outcome w p).
Proof.
  intros Hinv. unfold pool_step.
  destruct (workers p !! w) as [[|i base|]|] eqn:Hw; [| | done | done].
  - destruct (all !! idx p) as [base|] eqn:Hb.
    + by apply pool_inv_claim.
    + by apply pool_inv_finish.
  - by apply pool_inv_resume.
Qed.

Lemma pool_inv_exec (sched : list nat) (p : Pool) :
  pool_inv all outcome p →
  pool_inv all outcome (pool_exec all outcome sched p).
Proof.
  revert p. induction sched as [|w sched IH]; intros p Hinv; [done |].
  apply IH. by apply pool_inv_step.
Qed.

Lemma all_finished_lookup (p : Pool) (w : nat) (st : WorkerState) :
  all_finished p = true → workers p !! w = Some st → st = Finished.
Proof.
  unfold all_finished. rewrite forallb_forall. intros Hall Hw.
  apply list_elem_of_lookup_2, list_elem_of_In in Hw.
  specialize (Hall _ Hw). by destruct st.
Qed.

(** When every worker has returned, the output array is the input array
    with each record replaced, in place, by its enrichment. *)
Lemma pool_inv_final (p : Pool) :
  pool_inv all outcome p → all_finished p = true →
  idx p = length all ∧ out p = enriched all outcome.
Proof.
  intros [Hws Hcur Hcl Hlen Hfin Haw Hsingle Hcov Hwr] Hall.
  assert (Hidx : idx p = length all).
  { destruct (lookup_lt_is_Some_2 (workers p) 0) as [st Hst].
    { rewrite Hws. unfold DETAILS_CONCURRENCY. lia. }
    pose proof (all_finished_lookup _ _ _ Hall Hst) as ->.
    specialize (Hfin _ Hst). lia. }
  split; [done |]. apply list_eq. intros i. unfold enriched.
  rewrite list_lookup_imap.
  destruct (decide (i < length all)) as [Hi | Hi].
  - destruct (Hcov i ltac:(lia)) as [(w & b & Hw) | (b & Hb & Hg)].
    + by pose proof (all_finished_lookup _ _ _ Hall Hw).
    + rewrite Hb. simpl. by apply js_get_Some.
  - rewrite !lookup_ge_None_2; [done | lia | lia].
Qed.
End PoolSafety.

Section PoolProgress.
Variables (all : list Row) (outcome : nat → EvalOutcome).
Local Open Scope nat_scope.

Lemma sum_list_with_insert (ws : list WorkerState) (w : nat)
    (st st' : WorkerState) :
  ws !! w = Some st →
  sum_list_with worker_weight (<[w := st']> ws) + worker_weight st
  = sum_list_with worker_weight ws + worker_weight st'.
Proof.
  revert w. induction ws as [|x ws IH]; intros [|w] Hw; simpl in *;
    try discriminate.
  - injection Hw as ->. lia.
  - specialize (IH _ Hw). lia.
Qed.

(** Every step of a worker that has not returned brings the pool closer
    to completion. *)
Lemma pool_step_decreases (p : Pool) (w : nat) (st : WorkerState) :
  workers p !! w = Some st → st ≠ Finished →
  pool_measure all (pool_step all outcome w p) < pool_measure all p.
Proof.
  intros Hw Hst. unfold pool_step, pool_measure. rewrite Hw.
  destruct st as [|i base|]; [| | done].
  - destruct (all !! idx p) as [base|] eqn:Hb; cbn [idx workers].
    + apply lookup_lt_Some in Hb.
      pose proof (sum_list_with_insert _ _ _ (Awaiting (idx p) base) Hw).
      simpl in *. lia.
    + pose proof (sum_list_with_insert _ _ _ Finished Hw). simpl in *. lia.
  - cbn [idx workers].
    pose proof (sum_list_with_insert _ _ _ Ready Hw). simpl in *. lia.
Qed.

Lemma unfinished_worker (p : Pool) :
  all_finished p = false →
  ∃ w st, workers p !! w = Some st ∧ st ≠ Finished.
Proof.
  unfold all_finished. generalize (workers p). intros ws.
  induction ws as [|x ws IH]; simpl; [done |].
  destruct x; simpl.
  - intros _. by exists 0, Ready.
  - intros _. by eexists 0, (Awaiting _ _).
  - intros Hf. destruct (IH Hf) as (w & st & Hw & Hst).
    by exists (S w), st.
Qed.

Lemma pool_exec_app (s1 s2 : list nat) (p : Pool) :
  pool_exec all outcome (s1 ++ s2) p
  = pool_exec all outcome s2 (pool_exec all outcome s1 p).
Proof. apply foldl_app. Qed.

(** From any state the pool can be run to completion. *)
Lemma pool_can_finish (p : Pool) :
  ∃ rest, all_finished (pool_exec all outcome rest p) = true.
Proof.
  remember (pool_measure all p) as n eqn:Hn.
  assert (Hle : pool_measure all p ≤ n) by lia. clear Hn.
  revert p Hle. induction n as [|n IH]; intros p Hle.
  - destruct (all_finished p) eqn:Hf; [by exists [] |].
    destruct (unfinished_worker p Hf) as (w & st & Hw & Hst).
    pose proof (pool_step_decreases p w st Hw Hst). lia.
  - destruct (all_finished p) eqn:Hf; [by exists [] |].
    destruct (unfinished_worker p Hf) as (w & st & Hw & Hst).
    pose proof (pool_step_decreases p w st Hw Hst) as Hdec.
    destruct (IH (pool_step all outcome w p) ltac:(lia)) as [rest Hrest].
    by exists (w :: rest).
Qed.
End PoolProgress.

Lemma claimed_once (l : list (nat * nat)) (w w' i : nat) :
  NoDup (l.*2) → (w, i) ∈ l → (w', i) ∈ l → w = w'.
Proof.
  induction l as [|[v j] l IH]; intros Hnd H1 H2.
  - by apply elem_of_nil in H1.
  - rewrite fmap_cons in Hnd. apply NoDup_cons in Hnd as [Hj Hnd].
    apply elem_of_cons in H1 as [E1 | H1];
      apply elem_of_cons in H2 as [E2 | H2].
    + congruence.
    + injection E1 as -> ->. exfalso. apply Hj.
      apply list_elem_of_fmap. by exists (w', j).
    + injection E2 as -> ->. exfalso. apply Hj.
      apply list_elem_of_fmap. by exists (w, j).
    + by apply IH.
Qed.

(** C3. Whatever the order in which the workers run and their awaits
    complete, each slot of the output array that has been written holds the
    enrichment of the input record with the same index; each index is
    claimed once, so no record is handled by two workers; once all workers
    have returned the output array is the input array enriched position by
    position; and every run can be continued until all workers return. *)
Theorem pool_output_index_preserving (all : list Row)
    (outcome : nat → EvalOutcome) (sched : list nat) :
  let p := pool_exec all outcome sched pool_init in
  (∀ i r, js_get (out p) i = Some r →
     ∃ base, all !! i = Some base
             ∧ r = scrapeDetailsViaApi (outcome i) base)
  ∧ NoDup ((claimed p).*2)
  ∧ (∀ w w' i, (w, i) ∈ claimed p → (w', i) ∈ claimed p → w = w')
  ∧ (all_finished p = true →
     out p = enriched all outcome
     ∧ (claimed p).*2 = seq 0 (length all))
  ∧ ∃ rest,
      all_finished (pool_exec all outcome (sched ++ rest) pool_init) = true.
Proof.
  intros p.
  assert (Hinv : pool_inv all outcome p)
    by apply pool_inv_exec, pool_inv_init.
  assert (Hnd : NoDup ((claimed p).*2)).
  { rewrite (inv_claimed _ _ _ Hinv). apply NoDup_seq. }
  split; [exact (inv_written _ _ _ Hinv) |].
  split; [done |].
  split; [intros w w' i; by apply claimed_once |].
  split.
  - intros Hfin. destruct (pool_inv_final _ _ _ Hinv Hfin) as [Hidx Hout].
    split; [done |]. by rewrite (inv_claimed _ _ _ Hinv), Hidx.
  - destruct (pool_can_finish all outcome p) as [rest Hrest].
    exists rest. by rewrite pool_exec_app.
Qed.

Lemma pool_output_index_preserving_witness :
  all_finished
    (pool_exec three_records three_outcomes reversed_schedule pool_init) = true
  ∧ out (pool_exec three_records three_outcomes reversed_schedule pool_init)
    = enriched three_records three_outcomes.
Proof.
  split; [vm_compute; reflexivity |].
  apply (pool_output_index_preserving three_records three_outcomes
           reversed_schedule).
  vm_compute; reflexivity.
Defined.

(** *** Failure isolation *)

Lemma error_text_empty (e : JsThrown) :
  error_text e = "" ↔ e = ThrownString "" ∨ e = ErrorObject "" "".
Proof.
  destruct e as [[|c n] [|c' m] | s]; simpl;
    (split; [intros Hx; first [congruence | by right | subst; by left]
            | intros [Hx | Hx]; congruence]).
Qed.

Lemma scrapeDetailsViaApi_no_id (outcome : EvalOutcome) (base : Row) :
  id base = "" → scrapeDetailsViaApi outcome base = base.
Proof. intros Hid. unfold scrapeDetailsViaApi. by rewrite Hid. Qed.

Lemma scrapeDetailsViaApi_rejected (e : JsThrown) (base : Row) :
  id base ≠ "" →
  scrapeDetailsViaApi (Rejected e) base
  = with_detail_error base (error_text e).
Proof.
  intros Hid. unfold scrapeDetailsViaApi.
  apply truthy_true_iff in Hid. by rewrite Hid.
Qed.

(** C4. A rejection of one record's detail request is caught inside
    [scrapeDetailsViaApi]: the call returns the record with its
    [_detail_error] key set to the error text (non-empty unless the thrown
    value is the empty string or an error with neither name nor message)
    and every other field as it was.  The pool is unaffected: every run can
    be continued until all workers return, and then the failed record sits
    at its own index and every other record has its own enrichment. *)
Theorem enrichment_failure_isolated (all : list Row)
    (outcome : nat → EvalOutcome) (i : nat) (base : Row) (e : JsThrown) :
  all !! i = Some base →
  id base ≠ "" →
  outcome i = Rejected e →
  let failed := scrapeDetailsViaApi (outcome i) base in
  _detail_error failed = Some (error_text e)
  ∧ (e ≠ ThrownString "" → e ≠ ErrorObject "" "" → error_text e ≠ "")
  ∧ same_except_detail_error base failed
  ∧ ∀ sched : list nat,
      let p := pool_exec all outcome sched pool_init in
      (∃ rest,
         all_finished (pool_exec all outcome (sched ++ rest) pool_init) = true)
      ∧ (all_finished p = true →
         js_get (out p) i = Some failed
         ∧ ∀ j b, all !! j = Some b →
             js_get (out p) j = Some (scrapeDetailsViaApi (outcome j) b)).
Proof.
  intros Hi Hid Hrej failed. subst failed.
  rewrite Hrej, scrapeDetailsViaApi_rejected by done.
  split; [done |]. split.
  { intros H1 H2 Hempty. apply error_text_empty in Hempty as [? | ?]; done. }
  split; [by repeat split |].
  intros sched p.
  assert (Hinv : pool_inv all outcome p)
    by apply pool_inv_exec, pool_inv_init.
  split.
  - destruct (pool_can_finish all outcome p) as [rest Hrest].
    exists rest. by rewrite pool_exec_app.
  - intros Hfin. destruct (pool_inv_final _ _ _ Hinv Hfin) as [_ Hout].
    assert (Hget : ∀ j b, all !! j = Some b →
              js_get (out p) j = Some (scrapeDetailsViaApi (outcome j) b)).
    { intros j b Hj. apply js_get_Some. rewrite Hout. unfold enriched.
      by rewrite list_lookup_imap, Hj. }
    split; [| done].
    rewrite (Hget i base Hi), Hrej. by rewrite scrapeDetailsViaApi_rejected.
Qed.

Lemma enrichment_failure_isolated_witness :
  js_get (out (pool_exec three_records three_outcomes reversed_schedule
                 pool_init)) 1
  = Some (with_detail_error (listed "a2" "B-2")
            "Fetch failed 500 for /Bids/GetBidDetail?id=a2")
  ∧ js_get (out (pool_exec three_records three_outcomes reversed_schedule
                   pool_init)) 0
    = Some (scrapeDetailsViaApi (three_outcomes 0) (listed "a1" "B-1")).
Proof.
  pose proof (enrichment_failure_isolated three_records three_outcomes 1
                (listed "a2" "B-2") fetch_failure
                eq_refl ltac:(discriminate) eq_refl) as H.
  destruct H as (_ & _ & _ & H).
  destruct (H reversed_schedule) as [_ Hfin].
  destruct (Hfin ltac:(vm_compute; reflexivity)) as [H1 H2].
  split; [exact H1 | exact (H2 0%nat _ eq_refl)].
Defined.

(** *** Pagination *)

Lemma page_changed_ignores_prev (prev : string) (d : Dom) :
  page_changed prev d
  = truthy (nowId d) || truthy (first_row_text d) || truthy (nowPage d).
Proof.
  unfold page_changed, string_prop.
  rewrite !bool_decide_eq_false_2 by discriminate.
  simpl. by rewrite !andb_true_r.
Qed.

Lemma page_changed_blank (prev : string) (d : Dom) :
  signature d = ("", "", "") → page_changed prev d = false.
Proof.
  unfold signature. intros Hsig. injection Hsig as H1 H2 H3.
  rewrite page_changed_ignores_prev, H1, H2, H3. done.
Qed.

Lemma page_changed_nonblank (prev : string) (d : Dom) :
  signature d ≠ ("", "", "") → page_changed prev d = true.
Proof.
  unfold signature. intros Hsig. rewrite page_changed_ignores_prev.
  destruct (nowId d); [| done].
  destruct (first_row_text d); [| done].
  destruct (nowPage d); [| done]. done.
Qed.

Section Advance.
Context {W : Type} `{Browser W}.
Local Open Scope nat_scope.

Lemma poll_never (cond : W → bool) (n : nat) (s : W) :
  (∀ k, k ≤ n → cond (Nat.iter k tick s) = false) →
  poll cond n s = (false, Nat.iter n tick s).
Proof.
  revert s. induction n as [|n IH]; intros s Hall;
    pose proof (Hall 0 ltac:(lia)) as H0; simpl in H0; simpl; rewrite H0.
  - done.
  - rewrite IH.
    + by rewrite <- Nat.iter_succ_r.
    + intros k Hk. rewrite <- Nat.iter_succ_r. apply Hall. lia.
Qed.

Lemma poll_now (cond : W → bool) (n : nat) (s : W) :
  cond s = true → poll cond n s = (true, s).
Proof. intros Hc. destruct n; simpl; by rewrite Hc. Qed.

(** The control is absent or disabled: [false], and nothing was done. *)
Lemma findAndClickNext_disabled (s : W) :
  next_disabled (read_dom s) = true → findAndClickNext s = Ok (false, s).
Proof.
  intros Hd. unfold findAndClickNext, bind, evaluate. by rewrite Hd.
Qed.

(** After the click no signal is ever non-empty: the wait times out and
    the function throws. *)
Lemma findAndClickNext_timeout (s : W) :
  next_disabled (read_dom s) = false →
  (∀ k, k ≤ polls_within 30000 →
     signature (read_dom (Nat.iter k tick (click_next s))) = ("", "", "")) →
  findAndClickNext s = Throw (TimeoutError 30000).
Proof.
  intros Hd Hblank. unfold findAndClickNext, bind, evaluate, click.
  rewrite Hd. unfold wait_for. rewrite poll_never; [done |].
  intros k Hk. by apply page_changed_blank, Hblank.
Qed.



(** Right after the click some signal is non-empty: the function reports
    success at once, whatever the document showed before. *)
Lemma findAndClickNext_at_once (s : W) :
  next_disabled (read_dom s) = false →
  signature (read_dom (click_next s)) ≠ ("", "", "") →
  findAndClickNext s = Ok (true, click_next s).
Proof.
  intros Hd Hsig. unfold findAndClickNext, bind, evaluate, click.
  rewrite Hd. unfold wait_for. rewrite poll_now; [done |].
  by apply page_changed_nonblank.
Qed.
End Advance.

(** C5, on a grid that ignores the next control: the control is enabled, the
    signature is the same in every state of the page, and yet
    [findAndClickNext] reports success instead of timing out. *)
Theorem advance_succeeds_on_frozen_page :
  let B := scripted frozen_page in
  next_disabled (@read_dom _ B (0, 0)%nat) = false
  ∧ (∀ s, signature (@read_dom _ B s) = ("17", "B-17 Paving of Route 1", "1"))
  ∧ @findAndClickNext _ B (0, 0)%nat = Ok (true, (1, 0)%nat).
Proof. repeat split. Qed.

(** *** The directory walk *)


Section Walk.
Context {W : Type} `{Browser W}.
Variable agencyMap : gmap string string.
Local Open Scope nat_scope.

Lemma visit_page_rows (s s1 : W) (rows : list Row) :
  visit_page s = Ok (rows, s1) →
  rows = map normalize_row (scrapePageRows (read_dom s1)).
Proof.
  unfold visit_page, bind, evaluate, ret.
  destruct (waitForAnyRows s) as [[[] s0]|]; [| done].
  destruct (waitForRenderedRows s0) as [[[] s0']|]; [| done].
  intros Heq. by injection Heq as <- <-.
Qed.

Lemma add_new_length (rows all : list Row) (seen : gset string) :
  length (add_new agencyMap rows all seen).1 ≤ length all + length rows.
Proof.
  revert all seen. induction rows as [|r rows IH]; intros all seen; simpl.
  - lia.
  - case_bool_decide.
    + specialize (IH all seen). lia.
    + specialize (IH (all ++ [with_agency_full r
                                (agency_lookup agencyMap (agency_code r))])
                     ({[page_key r]} ∪ seen)).
      rewrite length_app in IH. simpl in IH. lia.
Qed.

Lemma scrapePageRows_length (d : Dom) :
  length (scrapePageRows d) ≤ length (dom_rows d).
Proof.
  unfold scrapePageRows.
  etrans; [apply length_filter |]. by rewrite length_map.
Qed.

(** The loop stops without error when the next control is absent or
    disabled. *)
Lemma walk_loop_last_page (maxItems n : nat) (all : list Row)
    (seen : gset string) (s s1 : W) (rows : list Row) :
  visit_page s = Ok (rows, s1) →
  next_disabled (read_dom s1) = true →
  walk_loop agencyMap maxItems (S n) all seen s
  = Ok ((add_new agencyMap rows all seen).1, s1).
Proof.
  intros Hvisit Hd. simpl. unfold bind at 1. rewrite Hvisit.
  destruct (add_new agencyMap rows all seen) as [all' seen'].
  destruct (maxItems <=? length all'); [done |].
  unfold bind. by rewrite findAndClickNext_disabled.
Qed.

(** The cutoff returns the whole accumulated list. *)
Lemma walk_loop_cutoff (maxItems n : nat) (all : list Row)
    (seen : gset string) (s s1 : W) (rows : list Row) :
  visit_page s = Ok (rows, s1) →
  maxItems ≤ length (add_new agencyMap rows all seen).1 →
  walk_loop agencyMap maxItems (S n) all seen s
  = Ok ((add_new agencyMap rows all seen).1, s1).
Proof.
  intros Hvisit Hlen. simpl. unfold bind at 1. rewrite Hvisit.
  destruct (add_new agencyMap rows all seen) as [all' seen'].
  simpl in Hlen. by destruct (Nat.leb_spec maxItems (length all')); [| lia].
Qed.

Lemma walk_loop_length (maxItems page_rows n : nat) (all : list Row)
    (seen : gset string) (s s' : W) (res : list Row) :
  (∀ st, length (dom_rows (read_dom st)) ≤ page_rows) →
  length all ≤ Nat.pred maxItems →
  walk_loop agencyMap maxItems n all seen s = Ok (res, s') →
  length res ≤ Nat.pred maxItems + page_rows.
Proof.
  intros Hpage. revert all seen s.
  induction n as [|n IH]; intros all seen s Hall; simpl.
  - unfold ret. intros Heq. injection Heq as <- <-. lia.
  - unfold bind at 1. destruct (visit_page s) as [[rows s1]|] eqn:Hv; [| done].
    pose proof (visit_page_rows _ _ _ Hv) as Hrows.
    pose proof (add_new_length rows all seen) as Hadd.
    assert (length rows ≤ page_rows).
    { rewrite Hrows, length_map.
      etrans; [apply scrapePageRows_length | apply Hpage]. }
    destruct (add_new agencyMap rows all seen) as [all' seen'].
    simpl in Hadd.
    destruct (Nat.leb_spec maxItems (length all')).
    + unfold ret. intros Heq. injection Heq as <- <-. lia.
    + unfold bind.
      destruct (findAndClickNext s1) as [[[|] s2]|]; [| | done].
      * apply IH. lia.
      * unfold ret. intros Heq. injection Heq as <- <-. lia.
Qed.
End Walk.

Lemma walk_loop_reaches {W} `{Browser W} (agencyMap : gmap string string)
    (maxItems n m : nat) (all all' : list Row) (seen seen' : gset string)
    (s s' : W) :
  walk_reaches agencyMap maxItems n all seen s m all' seen' s' →
  walk_loop agencyMap maxItems n all seen s
  = walk_loop agencyMap maxItems m all' seen' s'.
Proof.
  induction 1 as [| n all seen s rows s1 s2 m all' seen' s'
                    Hvisit Hlen Hnext _ IH]; [done |].
  rewrite <- IH. simpl. unfold bind at 1. rewrite Hvisit.
  destruct (add_new agencyMap rows all seen) as [all1 seen1].
  simpl in Hlen |- *.
  destruct (Nat.leb_spec maxItems (length all1)); [lia |].
  unfold bind. by rewrite Hnext.
Qed.




(** C2, on a page that lists one row with a title but neither identifier
    nor contract number: the per-page pass keys the record by its
    serialization and keeps it, the final pass computes the empty key and
    drops it, so the walk returns nothing. *)
Theorem final_dedup_drops_keyless_record :
  let B := scripted title_only_page in
  @walk_loop _ B ∅ MAX_ITEMS MAX_PAGES [] ∅ (0, 0)%nat
  = Ok ([title_only_row], (0, 0)%nat)
  ∧ page_key title_only_row = JSON_stringify title_only_row
  ∧ final_key title_only_row = ""
  ∧ page_key title_only_row ≠ final_key title_only_row
  ∧ @run_walk _ B ∅ (0, 0)%nat = Ok ([], (0, 0)%nat).
Proof.
  repeat split; try (vm_compute; reflexivity).
  vm_compute. discriminate.
Qed.

(** The key of the final pass is the key of the per-page pass exactly on
    the records that have a link or a contract number. *)
Lemma final_key_page_key (r : Row) :
  final_key r ≠ "" → page_key r = final_key r.
Proof.
  unfold final_key, page_key, or_else.
  destruct (truthy (bookmarkable_link_url r)); [done |].
  destruct (contract_number r); [done | done].
Qed.

(** The walk's result keeps the order in which records were first seen. *)
Lemma walk_first_seen_order {W} `{Browser W}
    (agencyMap : gmap string string) (maxPages maxItems : nat)
    (s s' : W) (res : list Row) :
  walk agencyMap maxPages maxItems s = Ok (res, s') →
  ∃ s0 all, walk_start s = Ok (tt, s0)
            ∧ walk_loop agencyMap maxItems maxPages [] ∅ s0 = Ok (all, s')
            ∧ res = uniqBy all final_key
            ∧ res `sublist_of` all.
Proof.
  unfold walk. unfold bind at 1.
  destruct (walk_start s) as [[[] s0]|] eqn:Hstart; [| done].
  unfold bind, ret.
  destruct (walk_loop agencyMap maxItems maxPages [] ∅ s0) as [[all s1]|]
    eqn:Hloop; [| done].
  intros Heq. injection Heq as <- <-. exists s0, all.
  split; [done |]. split; [done |]. split; [done |]. apply uniqBy_sublist.
Qed.

(** C10. The walk's result can be longer than [maxItems]: the cutoff is
    tested after all new rows of the page have been appended and returns
    the whole accumulated list; nothing shortens it afterwards except the
    final deduplication.  The result is never longer than [maxItems - 1]
    plus the rows of one page. *)
Theorem walk_may_exceed_maxItems :
  (∀ (W : Type) (B : Browser W) (agencyMap : gmap string string)
     (maxPages maxItems page_rows : nat) (s s' : W) (res : list Row),
     (∀ st, (length (dom_rows (read_dom st)) ≤ page_rows)%nat) →
     walk agencyMap maxPages maxItems s = Ok (res, s') →
     (length res ≤ Nat.pred maxItems + page_rows)%nat)
  ∧ (∀ (W : Type) (B : Browser W) (agencyMap : gmap string string)
       (maxItems n : nat) (all : list Row) (seen : gset string)
       (s s1 : W) (rows : list Row),
       visit_page s = Ok (rows, s1) →
       (maxItems ≤ length (add_new agencyMap rows all seen).1)%nat →
       walk_loop agencyMap maxItems (S n) all seen s
       = Ok ((add_new agencyMap rows all seen).1, s1))
  ∧ (@walk _ (scripted three_row_page) ∅ MAX_PAGES 2 (0, 0)%nat
     = Ok (three_row_result, (0, 0)%nat)
     ∧ length three_row_result = 3%nat).
Proof.
  split; [| split].
  - intros W B agencyMap maxPages maxItems page_rows s s' res Hpage Hwalk.
    apply walk_first_seen_order in Hwalk as (s0 & all & _ & Hloop & _ & Hsub).
    apply sublist_length in Hsub.
    pose proof (walk_loop_length agencyMap maxItems page_rows maxPages
                  [] ∅ s0 s' all Hpage ltac:(simpl; lia) Hloop).
    lia.
  - intros W B agencyMap maxItems n all seen s s1 rows Hvisit Hlen.
    by apply walk_loop_cutoff.
  - split; [vm_compute; reflexivity | reflexivity].
Qed.

Lemma walk_may_exceed_maxItems_witness :
  (length three_row_result ≤ 1 + 3)%nat ∧ (2 < length three_row_result)%nat.
Proof.
  split; [| simpl; lia].
  refine (proj1 walk_may_exceed_maxItems _ (scripted three_row_page) ∅
            MAX_PAGES 2%nat 3%nat (0, 0)%nat (0, 0)%nat three_row_result _ _).
  - intros st. simpl. lia.
  - vm_compute; reflexivity.
Defined.


(** *** Whitespace normalization *)

Lemma collapse_ws_spaced (b : bool) (s : string) :
  spaced b (collapse_ws b s) = true.
Proof.
  revert b. induction s as [|c s IH]; intros b; simpl; [done |].
  destruct (is_ws c) eqn:Hc.
  - destruct b; [apply IH |]. simpl. by rewrite IH.
  - simpl. rewrite Hc. apply IH.
Qed.

Lemma trim_start_spaced (b b' : bool) (s : string) :
  spaced b s = true → spaced b' (trim_start s) = true.
Proof.
  revert b. induction s as [|c s IH]; intros b; simpl; [done |].
  destruct (is_ws c) eqn:Hc.
  - intros Hs. apply andb_prop in Hs as [_ Hs]. by eapply IH.
  - simpl. by rewrite Hc.
Qed.

Lemma trim_end_spaced (b : bool) (s : string) :
  spaced b s = true → spaced b (trim_end s) = true.
Proof.
  revert b. induction s as [|c s IH]; intros b; simpl; [done |].
  destruct (trim_end s) as [|d t] eqn:Ht.
  - destruct (is_ws c) eqn:Hc; simpl; [done | by rewrite Hc].
  - destruct (is_ws c) eqn:Hc; cbn [spaced]; rewrite Hc.
    + intros Hs. apply andb_prop in Hs as [Hs1 Hs2].
      rewrite Hs1. by apply IH.
    + by apply IH.
Qed.

Lemma trim_start_no_lead (s : string) : starts_ws (trim_start s) = false.
Proof.
  induction s as [|c s IH]; simpl; [done |].
  destruct (is_ws c) eqn:Hc; [done | simpl; by rewrite Hc].
Qed.

Lemma trim_end_no_lead (s : string) :
  starts_ws s = false → starts_ws (trim_end s) = false.
Proof.
  destruct s as [|c s]; simpl; [done |]. intros Hc.
  destruct (trim_end s); simpl; by rewrite Hc.
Qed.

Lemma trim_end_no_trail (s : string) : ends_ws (trim_end s) = false.
Proof.
  induction s as [|c s IH]; simpl; [done |].
  destruct (trim_end s) as [|d t] eqn:Ht.
  - destruct (is_ws c) eqn:Hc; simpl; [done | by rewrite Hc].
  - exact IH.
Qed.

Lemma collapse_ws_fixed (b : bool) (s : string) :
  spaced b s = true → collapse_ws b s = s.
Proof.
  revert b. induction s as [|c s IH]; intros b; simpl; [done |].
  destruct (is_ws c) eqn:Hc.
  - intros Hs. apply andb_prop in Hs as [Hs Hr].
    apply andb_prop in Hs as [Hsp Hb].
    apply Ascii.eqb_eq in Hsp as ->. destruct b; [done |].
    by rewrite IH.
  - intros Hs. by rewrite IH.
Qed.

Lemma trim_start_fixed (s : string) : starts_ws s = false → trim_start s = s.
Proof. destruct s as [|c s]; simpl; [done |]. by intros ->. Qed.

Lemma trim_end_cons (c : ascii) (s : string) :
  trim_end (String c s)
  = match trim_end s with
    | EmptyString => if is_ws c then EmptyString else String c EmptyString
    | r => String c r
    end.
Proof. reflexivity. Qed.

Lemma trim_end_fixed (s : string) : ends_ws s = false → trim_end s = s.
Proof.
  induction s as [|c s IH]; [done |]. intros He.
  destruct s as [|d s].
  - simpl in *. by rewrite He.
  - rewrite trim_end_cons, (IH He). done.
Qed.

Lemma normalize_tidy (s : string) : tidy (normalize s) = true.
Proof.
  unfold tidy, normalize, trim. rewrite or_else_empty_r.
  rewrite trim_end_spaced, trim_end_no_lead, trim_end_no_trail; try done.
  - apply trim_start_no_lead.
  - eapply trim_start_spaced, collapse_ws_spaced.
Qed.

Lemma tidy_normalize (s : string) : tidy s = true → normalize s = s.
Proof.
  unfold tidy. intros Ht. apply andb_prop in Ht as [Ht He].
  apply andb_prop in Ht as [Hs Hl].
  apply negb_true_iff in He, Hl.
  unfold normalize, trim. rewrite or_else_empty_r.
  by rewrite collapse_ws_fixed, trim_start_fixed, trim_end_fixed.
Qed.

Lemma collapse_ws_ascii (b : bool) (s : string) :
  ascii_text s = true → ascii_text (collapse_ws b s) = true.
Proof.
  revert b. induction s as [|c s IH]; intros b; simpl; [done |].
  intros Ha. apply andb_prop in Ha as [Hc Hs].
  destruct (is_ws c); [destruct b |]; simpl; rewrite ?Hc; by apply IH.
Qed.

Lemma trim_start_ascii (s : string) :
  ascii_text s = true → ascii_text (trim_start s) = true.
Proof.
  induction s as [|c s IH]; simpl; [done |].
  intros Ha. apply andb_prop in Ha as [Hc Hs].
  destruct (is_ws c); [by apply IH |]. simpl. by rewrite Hc, Hs.
Qed.

Lemma trim_end_ascii (s : string) :
  ascii_text s = true → ascii_text (trim_end s) = true.
Proof.
  induction s as [|c s IH]; [done |]. rewrite trim_end_cons.
  cbn [ascii_text]. intros Ha. apply andb_prop in Ha as [Hc Hs].
  specialize (IH Hs). destruct (trim_end s) as [|d t].
  - destruct (is_ws c); simpl; [done | by rewrite Hc].
  - cbn [ascii_text] in *. by rewrite Hc, IH.
Qed.

(** X1. On texts in the ASCII range [normalize] is idempotent: normalizing
    a normalized text changes nothing.  Its result is again in the ASCII
    range, has single spaces as its only whitespace and none at either
    end. *)
Theorem normalize_idempotent (s : string) :
  ascii_text s = true →
  normalize (normalize s) = normalize s
  ∧ ascii_text (normalize s) = true
  ∧ spaced false (normalize s) = true
  ∧ starts_ws (normalize s) = false
  ∧ ends_ws (normalize s) = false.
Proof.
  intros Hascii. pose proof (normalize_tidy s) as Ht.
  split; [by apply tidy_normalize |]. split.
  { unfold normalize, trim. rewrite or_else_empty_r.
    by apply trim_end_ascii, trim_start_ascii, collapse_ws_ascii. }
  unfold tidy in Ht. apply andb_prop in Ht as [Ht He].
  apply andb_prop in Ht as [Hs Hl].
  by apply negb_true_iff in He, Hl.
Qed.

Lemma normalize_idempotent_witness :
  normalize (normalize "  B-17   Paving of  Route 1 ")
  = normalize "  B-17   Paving of  Route 1 ".
Proof.
  exact (proj1 (normalize_idempotent "  B-17   Paving of  Route 1 " eq_refl)).
Defined.

Lemma collapse_ws_ink (b : bool) (s : string) :
  has_ink (collapse_ws b s) = has_ink s.
Proof.
  revert b. induction s as [|c s IH]; intros b; simpl; [done |].
  destruct (is_ws c) eqn:Hc; simpl.
  - destruct b; simpl; apply IH.
  - by rewrite Hc.
Qed.

Lemma trim_start_ink (s : string) : has_ink (trim_start s) = has_ink s.
Proof.
  induction s as [|c s IH]; simpl; [done |].
  destruct (is_ws c) eqn:Hc; simpl; [done | by rewrite Hc].
Qed.

Lemma trim_end_empty (s : string) : trim_end s = "" ↔ has_ink s = false.
Proof.
  induction s as [|c s IH]; simpl; [done |].
  destruct (trim_end s) as [|d t] eqn:Ht.
  - destruct (is_ws c) eqn:Hc; simpl.
    + split; [intros _; by apply IH | done].
    + split; discriminate.
  - split; [discriminate |]. intros Hi. apply orb_false_iff in Hi as [_ Hi].
    apply IH in Hi. discriminate.
Qed.

Lemma trim_ink (s : string) : trim s = "" ↔ has_ink s = false.
Proof. unfold trim. by rewrite trim_end_empty, trim_start_ink. Qed.

Lemma trim_end_ink (s : string) : has_ink (trim_end s) = has_ink s.
Proof.
  induction s as [|c s IH]; simpl; [done |].
  destruct (trim_end s) as [|d t] eqn:Ht.
  - assert (Hs : has_ink s = false) by by apply trim_end_empty.
    rewrite Hs. destruct (is_ws c) eqn:Hc; simpl; by rewrite ?Hc.
  - cbn [has_ink]. cbn [has_ink] in IH. by rewrite IH.
Qed.

(** X2. On texts in the ASCII range [normalize] yields the empty string
    exactly on texts made of whitespace only, which are also the texts that
    [trim] empties. *)
Theorem normalize_empty_iff (s : string) :
  ascii_text s = true →
  (normalize s = "" ↔ has_ink s = false)
  ∧ (trim s = "" ↔ has_ink s = false).
Proof.
  intros _. split; [| apply trim_ink].
  unfold normalize. rewrite or_else_empty_r, trim_ink. by rewrite collapse_ws_ink.
Qed.

Lemma normalize_empty_iff_witness : normalize "   " = "".
Proof.
  exact (proj2 (proj1 (normalize_empty_iff "   " eq_refl)) eq_refl).
Defined.

Lemma normalize_empty_ink (s : string) :
  normalize s = "" ↔ has_ink s = false.
Proof.
  unfold normalize. rewrite or_else_empty_r, trim_ink. by rewrite collapse_ws_ink.
Qed.

Lemma trim_has_ink (s : string) : has_ink (trim s) = has_ink s.
Proof. unfold trim. by rewrite trim_end_ink, trim_start_ink. Qed.

(** *** More on [uniqBy] *)

Lemma uniqBy_loop_app {A} (keyFn : A → string) (l1 l2 : list A)
    (seen : gset string) :
  uniqBy_loop keyFn (l1 ++ l2) seen []
  = uniqBy_loop keyFn l1 seen []
    ++ uniqBy_loop keyFn l2
         (list_to_set (keyFn <$> uniqBy_loop keyFn l1 seen []) ∪ seen) [].
Proof.
  revert seen. induction l1 as [|x l1 IH]; intros seen; simpl.
  - by rewrite union_empty_l_L.
  - destruct (negb (truthy (keyFn x)) || bool_decide (keyFn x ∈ seen)).
    + apply IH.
    + rewrite (uniqBy_loop_out keyFn (l1 ++ l2)), IH.
      rewrite (uniqBy_loop_out keyFn l1 _ [x]).
      rewrite <- app_assoc. f_equal. f_equal. f_equal.
      rewrite fmap_app, list_to_set_app_L.
      set (S0 := list_to_set (keyFn <$> uniqBy_loop keyFn l1 _ [])).
      clearbody S0. apply set_eq. intros k.
      rewrite !elem_of_union, elem_of_list_to_set.
      change (keyFn <$> [x]) with [keyFn x].
      rewrite list_elem_of_singleton, elem_of_singleton. tauto.
Qed.

Lemma uniqBy_loop_covers {A} (keyFn : A → string) (arr : list A)
    (seen : gset string) (x : A) :
  x ∈ arr → truthy (keyFn x) = true →
  keyFn x ∈ seen ∨ keyFn x ∈ keyFn <$> uniqBy_loop keyFn arr seen [].
Proof.
  revert seen. induction arr as [|y arr IH]; intros seen Hx Ht.
  - by apply elem_of_nil in Hx.
  - simpl. apply elem_of_cons in Hx as [<- | Hx].
    + rewrite Ht. simpl. case_bool_decide as Hin; [by left |].
      right. rewrite uniqBy_loop_out. simpl. apply list_elem_of_here.
    + destruct (negb (truthy (keyFn y)) || bool_decide (keyFn y ∈ seen)).
      * by apply IH.
      * rewrite uniqBy_loop_out. simpl.
        destruct (IH ({[keyFn y]} ∪ seen) Hx Ht) as [Hs | Ho].
        -- apply elem_of_union in Hs as [Hs | Hs]; [| by left].
           apply elem_of_singleton in Hs. right. rewrite Hs.
           apply list_elem_of_here.
        -- right. by apply list_elem_of_further.
Qed.

(** X3. The result of [uniqBy] is the input with elements left out, in the
    input's order; its keys are truthy and pairwise distinct; and every
    truthy key of the input is the key of an element of the result. *)
Theorem uniqBy_distinct_and_complete {A} (keyFn : A → string) (arr : list A) :
  uniqBy arr keyFn `sublist_of` arr
  ∧ NoDup (keyFn <$> uniqBy arr keyFn)
  ∧ Forall (fun x => truthy (keyFn x) = true) (uniqBy arr keyFn)
  ∧ ∀ x, x ∈ arr → truthy (keyFn x) = true →
      keyFn x ∈ keyFn <$> uniqBy arr keyFn.
Proof.
  destruct (uniqBy_fresh keyFn arr) as [Hall Hnd].
  split; [apply uniqBy_sublist |]. split; [done |]. split.
  - eapply Forall_impl; [exact Hall |]. by intros x [Hx _].
  - intros x Hx Ht.
    destruct (uniqBy_loop_covers keyFn arr ∅ x Hx Ht) as [Hs | Ho]; [| done].
    by apply not_elem_of_empty in Hs.
Qed.

(** X4. Deduplication keeps first occurrences and composes over
    concatenation: when [x] has a truthy key that no element before it has,
    the result is the deduplicated prefix, then [x], then what the rest
    contributes beyond the keys kept so far. *)
Theorem uniqBy_first_occurrence {A} (keyFn : A → string)
    (l1 l2 : list A) (x : A) :
  truthy (keyFn x) = true →
  keyFn x ∉ keyFn <$> l1 →
  uniqBy (l1 ++ x :: l2) keyFn
  = uniqBy l1 keyFn
    ++ x :: uniqBy_loop keyFn l2
              ({[keyFn x]} ∪ list_to_set (keyFn <$> uniqBy l1 keyFn)) [].
Proof.
  intros Ht Hnew. unfold uniqBy. rewrite uniqBy_loop_app.
  rewrite union_empty_r_L. f_equal. simpl. rewrite Ht. simpl.
  rewrite bool_decide_eq_false_2.
  - by rewrite uniqBy_loop_out.
  - rewrite elem_of_list_to_set. intros Hin. apply Hnew.
    apply list_elem_of_fmap in Hin as (y & Hk & Hy).
    apply list_elem_of_fmap. exists y. split; [done |].
    eapply elem_of_sublist; [exact Hy | apply uniqBy_loop_sublist].
Qed.

Lemma uniqBy_first_occurrence_witness :
  uniqBy ([listed "a1" "B-1"; listed "a1" "B-9"]
          ++ listed "" "B-3" :: [listed "" "B-3"]) final_key
  = [listed "a1" "B-1"; listed "" "B-3"].
Proof.
  rewrite (uniqBy_first_occurrence final_key
             [listed "a1" "B-1"; listed "a1" "B-9"] [listed "" "B-3"]
             (listed "" "B-3")).
  - vm_compute; reflexivity.
  - reflexivity.
  - vm_compute. intros Hin.
    repeat (apply elem_of_cons in Hin as [Hin | Hin]; [discriminate |]).
    by apply elem_of_nil in Hin.
Defined.

(** X5. [uniqBy] returns its input unchanged exactly when the keys of the
    input are all truthy and pairwise distinct. *)
Theorem uniqBy_fixed_iff {A} (keyFn : A → string) (l : list A) :
  uniqBy l keyFn = l ↔ fresh_keys keyFn ∅ l.
Proof.
  split.
  - intros Heq. rewrite <- Heq. apply uniqBy_fresh.
  - apply uniqBy_loop_fixed.
Qed.

(** *** The per-page pass *)

Lemma JSON_stringify_truthy (r : Row) : truthy (JSON_stringify r) = true.
Proof. reflexivity. Qed.

Lemma page_key_truthy (r : Row) : truthy (page_key r) = true.
Proof.
  unfold page_key, or_else.
  destruct (truthy (bookmarkable_link_url r)) eqn:H1; [done |].
  destruct (truthy (contract_number r)) eqn:H2; [done |].
  apply JSON_stringify_truthy.
Qed.

Section AddNew.
Variable agencyMap : gmap string string.

Lemma add_new_spec (rows all : list Row) (seen : gset string) :
  ∃ added,
    added `sublist_of` rows
    ∧ (add_new agencyMap rows all seen).1
      = all ++ map (join_agency agencyMap) added
    ∧ (add_new agencyMap rows all seen).2
      = list_to_set (page_key <$> rows) ∪ seen.
Proof.
  revert all seen. induction rows as [|r rows IH]; intros all seen; simpl.
  - exists []. split; [constructor |]. split; [by rewrite app_nil_r |].
    by rewrite union_empty_l_L.
  - case_bool_decide as Hin.
    + destruct (IH all seen) as (added & Hsub & Hall & Hseen).
      exists added. split; [by apply sublist_cons |]. split; [done |].
      rewrite Hseen. apply set_eq. intros k.
      rewrite !elem_of_union, elem_of_singleton.
      split; [tauto |]. intros [[-> | Hk] | Hk]; auto.
    + destruct (IH (all ++ [join_agency agencyMap r])
                   ({[page_key r]} ∪ seen))
        as (added & Hsub & Hall & Hseen).
      unfold join_agency in *.
      exists (r :: added). split; [by apply sublist_skip |]. split.
      * rewrite Hall. simpl. by rewrite <- app_assoc.
      * rewrite Hseen. apply set_eq. intros k.
        rewrite !elem_of_union, elem_of_singleton. tauto.
Qed.

Lemma add_new_seen_all (rows all : list Row) (seen : gset string) :
  (∀ r, r ∈ rows → page_key r ∈ seen) →
  add_new agencyMap rows all seen = (all, seen).
Proof.
  induction rows as [|r rows IH]; intros Hall; simpl; [done |].
  rewrite bool_decide_eq_true_2.
  - apply IH. intros r' Hr'. apply Hall. by apply list_elem_of_further.
  - apply Hall, list_elem_of_here.
Qed.

Lemma add_new_Forall (Q : Row → Prop) (rows all : list Row)
    (seen : gset string) :
  Forall Q all →
  Forall (fun r => Q (join_agency agencyMap r)) rows →
  Forall Q (add_new agencyMap rows all seen).1.
Proof.
  intros Hall Hrows.
  destruct (add_new_spec rows all seen) as (added & Hsub & -> & _).
  apply Forall_app. split; [done |]. apply Forall_map.
  rewrite Forall_forall in Hrows |- *. intros r Hr.
  apply Hrows. by eapply elem_of_sublist.
Qed.
End AddNew.

(** X6. The per-page key is never empty, so a scraped row is skipped only
    when its key has been seen: a row with a new key is pushed, with its
    agency name joined, whatever its fields are. *)
Theorem page_key_never_empty (agencyMap : gmap string string) (r : Row)
    (all : list Row) (seen : gset string) :
  page_key r ≠ ""
  ∧ (page_key r ∉ seen →
     add_new agencyMap [r] all seen
     = (all ++ [join_agency agencyMap r], {[page_key r]} ∪ seen))
  ∧ (page_key r ∈ seen → add_new agencyMap [r] all seen = (all, seen)).
Proof.
  split; [apply truthy_true_iff, page_key_truthy |]. simpl.
  split; intros Hin.
  - by rewrite bool_decide_eq_false_2.
  - by rewrite bool_decide_eq_true_2.
Qed.

(** X7. The per-page pass only appends: the records accumulated so far stay
    where they are, the new ones are rows of the page, in page order, each
    with its agency name joined, and the seen set becomes the old one plus
    the keys of all rows of the page. *)
Theorem add_new_appends (agencyMap : gmap string string)
    (rows all : list Row) (seen : gset string) :
  ∃ added,
    added `sublist_of` rows
    ∧ (add_new agencyMap rows all seen).1
      = all ++ map (join_agency agencyMap) added
    ∧ (add_new agencyMap rows all seen).2
      = list_to_set (page_key <$> rows) ∪ seen.
Proof. apply add_new_spec. Qed.

(** X8. Scraping the same rows again adds nothing: after a page has been
    processed, processing it once more leaves the accumulated records and
    the seen set as they are. *)
Theorem add_new_same_page_again (agencyMap : gmap string string)
    (rows all : list Row) (seen : gset string) :
  add_new agencyMap rows (add_new agencyMap rows all seen).1
          (add_new agencyMap rows all seen).2
  = add_new agencyMap rows all seen.
Proof.
  destruct (add_new_spec agencyMap rows all seen) as (added & _ & _ & Hseen).
  rewrite add_new_seen_all; [by destruct (add_new agencyMap rows all seen) |].
  intros r Hr. rewrite Hseen. apply elem_of_union. left.
  apply elem_of_list_to_set, list_elem_of_fmap. eauto.
Qed.

(** *** Invariants of the walk *)

Lemma tidy_empty : tidy "" = true.
Proof. reflexivity. Qed.

Lemma get_normalized (cells : list string) (c : Z) :
  normalize (get (map normalize cells) c) = get (map normalize cells) c.
Proof.
  apply tidy_normalize. unfold get. destruct (0 <=? c); [| done].
  rewrite list_lookup_fmap. destruct (cells !! Z.to_nat c); simpl; [| done].
  rewrite or_else_empty_r. apply normalize_tidy.
Qed.

Lemma scraped_row_ok (agencyMap : gmap string string) (d : Dom) (r : Row) :
  r ∈ map normalize_row (scrapePageRows d) →
  listing_ok (join_agency agencyMap r)
  ∧ agency_full (join_agency agencyMap r)
    = agency_lookup agencyMap (agency_code (join_agency agencyMap r)).
Proof.
  intros Hr. apply list_elem_of_fmap in Hr as (r0 & -> & Hr0).
  unfold scrapePageRows in Hr0. apply list_elem_of_filter in Hr0 as [Hk Hr0].
  apply list_elem_of_fmap in Hr0 as (tr & -> & _).
  split; [| done].
  split; simpl; try apply normalize_tidy; try done.
  unfold keep_row in Hk. simpl in Hk. rewrite !get_normalized.
  apply orb_true_iff in Hk as [Hk | Hk]; apply truthy_true_iff in Hk; auto.
Qed.

Section WalkInvariant.
Context {W : Type} `{Browser W}.
Variables (agencyMap : gmap string string) (Q : Row → Prop).
Hypothesis scraped :
  ∀ d r, r ∈ map normalize_row (scrapePageRows d) →
         Q (join_agency agencyMap r).

Lemma walk_loop_Forall (maxItems n : nat) (all : list Row)
    (seen : gset string) (s s' : W) (res : list Row) :
  Forall Q all →
  walk_loop agencyMap maxItems n all seen s = Ok (res, s') →
  Forall Q res.
Proof.
  revert all seen s. induction n as [|n IH]; intros all seen s Hall; simpl.
  - unfold ret. intros Heq. by injection Heq as <- <-.
  - unfold bind at 1.
    destruct (visit_page s) as [[rows s1]|] eqn:Hv; [| done].
    pose proof (visit_page_rows _ _ _ Hv) as Hrows.
    assert (Hnew : Forall Q (add_new agencyMap rows all seen).1).
    { apply add_new_Forall; [done |]. apply Forall_forall. intros r Hr.
      apply (scraped (read_dom s1)). by rewrite <- Hrows. }
    destruct (add_new agencyMap rows all seen) as [all' seen'].
    simpl in Hnew. destruct (maxItems <=? length all')%nat.
    + unfold ret. intros Heq. by injection Heq as <- <-.
    + unfold bind. destruct (findAndClickNext s1) as [[[|] s2]|]; [| | done].
      * by apply IH.
      * unfold ret. intros Heq. by injection Heq as <- <-.
Qed.

Lemma walk_Forall (maxPages maxItems : nat) (s s' : W) (res : list Row) :
  walk agencyMap maxPages maxItems s = Ok (res, s') → Forall Q res.
Proof.
  intros Hwalk.
  apply walk_first_seen_order in Hwalk as (s0 & all & _ & Hloop & _ & Hsub).
  apply walk_loop_Forall in Hloop; [| constructor].
  rewrite Forall_forall in Hloop |- *. intros r Hr.
  apply Hloop. by eapply elem_of_sublist.
Qed.
End WalkInvariant.

(** X9. Every record the walk returns carries the joined agency name of its
    own agency code: [agencyMap.get(agency_code) || ""]. *)
Theorem walk_agency_joined {W} `{Browser W} (agencyMap : gmap string string)
    (maxPages maxItems : nat) (s s' : W) (res : list Row) :
  walk agencyMap maxPages maxItems s = Ok (res, s') →
  Forall (fun r => agency_full r = agency_lookup agencyMap (agency_code r))
         res.
Proof.
  apply walk_Forall. intros d r Hr.
  by destruct (scraped_row_ok agencyMap d r Hr).
Qed.

Lemma walk_agency_joined_witness :
  Forall (fun r => agency_full r = agency_lookup ∅ (agency_code r))
         three_row_result.
Proof.
  refine (@walk_agency_joined _ (scripted three_row_page) ∅ MAX_PAGES 2%nat
            (0, 0)%nat (0, 0)%nat three_row_result _).
  vm_compute; reflexivity.
Defined.

(** X10. On pages whose texts are in the ASCII range, every record the walk
    returns has a non-empty contract number or title; its text fields are
    whitespace-normalized; its link is the normalized template link of its
    identifier, or empty without identifier; and it carries no email, no
    files and no error yet. *)
Theorem walk_records_well_formed {W} `{Browser W}
    (agencyMap : gmap string string) (maxPages maxItems : nat)
    (s s' : W) (res : list Row) :
  (∀ st, ascii_dom (read_dom st) = true) →
  walk agencyMap maxPages maxItems s = Ok (res, s') →
  Forall listing_ok res.
Proof.
  intros _. apply walk_Forall. intros d r Hr.
  by destruct (scraped_row_ok agencyMap d r Hr).
Qed.

Lemma walk_records_well_formed_witness : Forall listing_ok three_row_result.
Proof.
  refine (@walk_records_well_formed _ (scripted three_row_page) ∅ MAX_PAGES
            2%nat (0, 0)%nat (0, 0)%nat three_row_result _ _).
  - intros st. reflexivity.
  - vm_compute; reflexivity.
Defined.

(** X11. No two records returned by the walk have the same final key, and
    every returned record has one: a link or a contract number. *)
Theorem walk_keys_distinct {W} `{Browser W} (agencyMap : gmap string string)
    (maxPages maxItems : nat) (s s' : W) (res : list Row) :
  walk agencyMap maxPages maxItems s = Ok (res, s') →
  NoDup (final_key <$> res)
  ∧ Forall (fun r => bookmarkable_link_url r ≠ "" ∨ contract_number r ≠ "")
           res.
Proof.
  intros Hwalk.
  apply walk_first_seen_order in Hwalk as (s0 & all & _ & _ & -> & _).
  destruct (uniqBy_fresh final_key all) as [Hall Hnd].
  split; [done |]. eapply Forall_impl; [exact Hall |].
  intros r [Ht _]. simpl in Ht. unfold final_key, or_else in Ht.
  destruct (truthy (bookmarkable_link_url r)) eqn:Hl.
  - left. by apply truthy_true_iff.
  - right. by apply truthy_true_iff.
Qed.

Lemma walk_keys_distinct_witness : NoDup (final_key <$> three_row_result).
Proof.
  refine (proj1 (@walk_keys_distinct _ (scripted three_row_page) ∅ MAX_PAGES
                   2%nat (0, 0)%nat (0, 0)%nat three_row_result _)).
  vm_compute; reflexivity.
Defined.

(** *** Waits *)

Section Waits.
Context {W : Type} `{Browser W}.
Local Open Scope nat_scope.

Lemma poll_spec (cond : W → bool) (n : nat) (s s' : W) (b : bool) :
  poll cond n s = (b, s') →
  ∃ k, k ≤ n ∧ s' = Nat.iter k tick s
       ∧ (∀ j, j < k → cond (Nat.iter j tick s) = false)
       ∧ cond s' = b ∧ (b = false → k = n).
Proof.
  revert s. induction n as [|n IH]; intros s; simpl;
    destruct (cond s) eqn:Hc; intros Hp.
  1-3: injection Hp as <- <-; exists 0;
    repeat split; first [lia | done | intros; lia].
  - destruct (IH _ Hp) as (k & Hk & -> & Hbefore & Hcond & Hlast).
    exists (S k). rewrite Nat.iter_succ_r.
    split; [lia |]. split; [done |]. split.
    + intros [|j] Hj; [done |]. rewrite Nat.iter_succ_r. apply Hbefore. lia.
    + split; [done |]. intros Hb. by rewrite (Hlast Hb).
Qed.

Lemma waitForAnyRows_from_ok (sels : list string) (s : W) :
  ∃ k, k ≤ length sels * polls_within 8000 + polls_within 1500
       ∧ waitForAnyRows_from sels s = Ok (tt, Nat.iter k tick s).
Proof.
  revert s. induction sels as [|sel sels IH]; intros s; simpl.
  - exists (polls_within 1500). split; [lia | done].
  - destruct (poll (selector_present sel) (polls_within 8000) s)
      as [[|] s1] eqn:Hp;
      destruct (poll_spec _ _ _ _ _ Hp) as (k & Hk & -> & _ & _ & Hlast).
    + exists k. split; [lia | done].
    + destruct (IH (Nat.iter k tick s)) as (k2 & Hk2 & ->).
      exists (k2 + k). split; [lia |]. by rewrite Nat.iter_add.
Qed.
End Waits.

(** X12. [waitForAnyRows] never fails: whatever the page shows, it returns,
    after at most four selector waits of 8 s and one sleep of 1.5 s, and all
    it does to the page is let time pass. *)
Theorem waitForAnyRows_never_throws {W} `{Browser W} (s : W) :
  ∃ k, (k ≤ 4 * polls_within 8000 + polls_within 1500)%nat
       ∧ waitForAnyRows s = Ok (tt, Nat.iter k tick s).
Proof. apply (waitForAnyRows_from_ok any_rows_selectors s). Qed.

(** X13. On pages whose texts are in the ASCII range, when
    [waitForRenderedRows] returns, the grid has a first row whose
    whitespace-normalized text is longer than 10 characters, and only time
    has passed, at most two waits of 45 s. *)
Theorem waitForRenderedRows_returns {W} `{Browser W} (s s' : W) :
  (∀ st, ascii_dom (read_dom st) = true) →
  waitForRenderedRows s = Ok (tt, s') →
  (∃ r, first_row (read_dom s') = Some r
        ∧ (10 < String.length (normalize (tr_innerText r)))%nat)
  ∧ ∃ k, (k ≤ 2 * polls_within 45000)%nat ∧ s' = Nat.iter k tick s.
Proof.
  intros _. unfold waitForRenderedRows, bind, wait_for.
  destruct (poll _ (polls_within 45000) s) as [[|] s1] eqn:Hp1; [| done].
  destruct (poll _ (polls_within 45000) s1) as [[|] s2] eqn:Hp2; [| done].
  intros Heq. injection Heq as <-.
  destruct (poll_spec _ _ _ _ _ Hp1) as (k1 & Hk1 & -> & _ & _ & _).
  destruct (poll_spec _ _ _ _ _ Hp2) as (k2 & Hk2 & -> & _ & Hc & _).
  split.
  - unfold first_row_rendered in Hc.
    destruct (first_row _) as [r|]; [| done].
    exists r. split; [done |]. by apply Nat.ltb_lt.
  - exists (k2 + k1)%nat. split; [lia |]. by rewrite Nat.iter_add.
Qed.

Lemma waitForRenderedRows_returns_witness :
  ∃ r, first_row three_row_dom = Some r
       ∧ (10 < String.length (normalize (tr_innerText r)))%nat.
Proof.
  refine (proj1 (@waitForRenderedRows_returns _ (scripted three_row_page)
                   (0, 0)%nat (0, 0)%nat _ _)).
  - intros st. reflexivity.
  - vm_compute; reflexivity.
Defined.

(** X14. What [findAndClickNext] has done when it returns: [false] means the
    control was absent or disabled and nothing was clicked; [true] means the
    enabled control was clicked once and the function returned at the first
    poll, within the timeout, at which some pagination signal was
    non-empty. *)
Theorem findAndClickNext_returns {W} `{Browser W} (s s' : W) (b : bool) :
  findAndClickNext s = Ok (b, s') →
  (b = false ∧ s' = s ∧ next_disabled (read_dom s) = true)
  ∨ (b = true ∧ next_disabled (read_dom s) = false
     ∧ ∃ k, (k ≤ polls_within 30000)%nat
            ∧ s' = Nat.iter k tick (click_next s)
            ∧ signature (read_dom s') ≠ ("", "", "")
            ∧ ∀ j, (j < k)%nat →
                signature (read_dom (Nat.iter j tick (click_next s)))
                = ("", "", "")).
Proof.
  unfold findAndClickNext, bind, evaluate, click, ret.
  destruct (next_disabled (read_dom s)) eqn:Hd.
  - intros Heq. injection Heq as <- <-. by left.
  - unfold wait_for.
    destruct (poll _ (polls_within 30000) (click_next s)) as [[|] s1] eqn:Hp;
      [| done].
    intros Heq. injection Heq as <- <-. right.
    destruct (poll_spec _ _ _ _ _ Hp) as (k & Hk & -> & Hbefore & Hc & _).
    split; [done |]. split; [done |]. exists k.
    split; [done |]. split; [done |]. split.
    + intros Hblank. by rewrite (page_changed_blank _ _ Hblank) in Hc.
    + intros j Hj. specialize (Hbefore j Hj). simpl in Hbefore.
      rewrite page_changed_ignores_prev in Hbefore.
      apply orb_false_iff in Hbefore as [Hb H3].
      apply orb_false_iff in Hb as [H1 H2].
      apply truthy_false_iff in H1, H2, H3.
      unfold signature. by rewrite H1, H2, H3.
Qed.

Lemma findAndClickNext_returns_witness :
  signature (@read_dom _ (scripted frozen_page) (1, 0)%nat) ≠ ("", "", "").
Proof.
  destruct (@findAndClickNext_returns _ (scripted frozen_page)
              (0, 0)%nat (1, 0)%nat true eq_refl)
    as [(Hb & _) | (_ & _ & k & _ & Hs & Hsig & _)]; [discriminate |].
  exact Hsig.
Defined.

(** *** How far the walk moves the page *)

Section Traces.
Context {W : Type} `{Browser W}.
Local Open Scope nat_scope.

Lemma page_trace_ticks (k : nat) (s : W) :
  page_trace 0 s (Nat.iter k tick s).
Proof.
  revert s. induction k as [|k IH]; intros s; [constructor |].
  rewrite Nat.iter_succ_r. apply page_trace_tick, IH.
Qed.

Lemma page_trace_trans (a b : nat) (s s1 s2 : W) :
  page_trace a s s1 → page_trace b s1 s2 → page_trace (a + b) s s2.
Proof.
  induction 1 as [s | c s s' _ IH | c s s' _ IH]; intros H2; simpl.
  - done.
  - apply page_trace_tick, IH, H2.
  - apply page_trace_click, IH, H2.
Qed.

Lemma wait_for_trace (cond : W → bool) (ms : N) (s s' : W) :
  wait_for cond ms s = Ok (tt, s') → page_trace 0 s s'.
Proof.
  unfold wait_for. destruct (poll cond (polls_within ms) s) as [[|] s1] eqn:Hp;
    [| done].
  intros Heq. injection Heq as <-.
  destruct (poll_spec _ _ _ _ _ Hp) as (k & _ & -> & _).
  apply page_trace_ticks.
Qed.

Lemma waitForAnyRows_trace (s s' : W) :
  waitForAnyRows s = Ok (tt, s') → page_trace 0 s s'.
Proof.
  destruct (waitForAnyRows_from_ok any_rows_selectors s) as (k & _ & Hk).
  unfold waitForAnyRows. rewrite Hk. intros Heq. injection Heq as <-.
  apply page_trace_ticks.
Qed.

Lemma waitForRenderedRows_trace (s s' : W) :
  waitForRenderedRows s = Ok (tt, s') → page_trace 0 s s'.
Proof.
  unfold waitForRenderedRows, bind.
  destruct (wait_for _ 45000 s) as [[[] s1]|] eqn:H1; [| done].
  intros H2. apply wait_for_trace in H1, H2.
  exact (page_trace_trans 0 0 _ _ _ H1 H2).
Qed.

Lemma visit_page_trace (s s' : W) (rows : list Row) :
  visit_page s = Ok (rows, s') → page_trace 0 s s'.
Proof.
  unfold visit_page, bind, evaluate, ret.
  destruct (waitForAnyRows s) as [[[] s1]|] eqn:H1; [| done].
  destruct (waitForRenderedRows s1) as [[[] s2]|] eqn:H2; [| done].
  intros Heq. injection Heq as _ <-.
  apply waitForAnyRows_trace in H1. apply waitForRenderedRows_trace in H2.
  exact (page_trace_trans 0 0 _ _ _ H1 H2).
Qed.

Lemma findAndClickNext_trace (s s' : W) (b : bool) :
  findAndClickNext s = Ok (b, s') →
  page_trace (if b then 1 else 0) s s'.
Proof.
  unfold findAndClickNext, bind, evaluate, click, ret.
  destruct (next_disabled (read_dom s)).
  - intros Heq. injection Heq as <- <-. constructor.
  - destruct (wait_for _ 30000 (click_next s)) as [[[] s1]|] eqn:Hw; [| done].
    intros Heq. injection Heq as <- <-.
    apply page_trace_click. by eapply wait_for_trace.
Qed.

Lemma walk_loop_trace (agencyMap : gmap string string) (maxItems n : nat)
    (all : list Row) (seen : gset string) (s s' : W) (res : list Row) :
  walk_loop agencyMap maxItems n all seen s = Ok (res, s') →
  ∃ c, c ≤ n ∧ page_trace c s s'.
Proof.
  revert all seen s. induction n as [|n IH]; intros all seen s; simpl.
  - unfold ret. intros Heq. injection Heq as _ <-.
    exists 0. split; [lia | constructor].
  - unfold bind at 1.
    destruct (visit_page s) as [[rows s1]|] eqn:Hv; [| done].
    apply visit_page_trace in Hv.
    destruct (add_new agencyMap rows all seen) as [all' seen'].
    destruct (maxItems <=? length all').
    + unfold ret. intros Heq. injection Heq as _ <-.
      exists 0. split; [lia | done].
    + unfold bind.
      destruct (findAndClickNext s1) as [[b s2]|] eqn:Hc; [| done].
      apply findAndClickNext_trace in Hc. destruct b.
      * intros Hrest. destruct (IH _ _ _ Hrest) as (c & Hle & Htr).
        exists (S c). split; [lia |].
        exact (page_trace_trans 0 (S c) _ _ _ Hv
                 (page_trace_trans 1 c _ _ _ Hc Htr)).
      * unfold ret. intros Heq. injection Heq as _ <-.
        exists 0. split; [lia |].
        exact (page_trace_trans 0 0 _ _ _ Hv Hc).
Qed.
End Traces.

(** X15. A walk that returns has clicked the next control at most
    [maxPages] times; everything else it did to the page was to let time
    pass. *)
Theorem walk_clicks_bounded {W} `{Browser W} (agencyMap : gmap string string)
    (maxPages maxItems : nat) (s s' : W) (res : list Row) :
  walk agencyMap maxPages maxItems s = Ok (res, s') →
  ∃ c, (c ≤ maxPages)%nat ∧ page_trace c s s'.
Proof.
  intros Hwalk.
  apply walk_first_seen_order in Hwalk as (s0 & all & Hstart & Hloop & _).
  destruct (walk_loop_trace _ _ _ _ _ _ _ _ Hloop) as (c & Hle & Htr).
  exists c. split; [done |].
  unfold walk_start, bind in Hstart.
  destruct (waitForRenderedRows s) as [[[] s1]|] eqn:H1; [| done].
  apply waitForRenderedRows_trace in H1. apply waitForAnyRows_trace in Hstart.
  exact (page_trace_trans 0 c _ _ _
           (page_trace_trans 0 0 _ _ _ H1 Hstart) Htr).
Qed.

Lemma walk_clicks_bounded_witness :
  ∃ c, (c ≤ 3)%nat
       ∧ @page_trace _ (scripted frozen_page) c (0, 0)%nat (3, 0)%nat.
Proof.
  refine (@walk_clicks_bounded _ (scripted frozen_page) ∅ 3%nat MAX_ITEMS
            (0, 0)%nat (3, 0)%nat [first_page_record] _).
  vm_compute; reflexivity.
Defined.

(** *** More on the worker pool *)

Lemma scrapeDetailsViaApi_same_listing (outcome : EvalOutcome) (base : Row) :
  same_listing base (scrapeDetailsViaApi outcome base).
Proof.
  unfold scrapeDetailsViaApi.
  destruct (negb (truthy (id base))); [by repeat split |].
  destruct outcome; by repeat split.
Qed.

Lemma scrapeDetailsViaApi_resolved (d : Detail) (base : Row) :
  id base ≠ "" →
  scrapeDetailsViaApi (Resolved d) base = with_detail base d.
Proof.
  intros Hid. unfold scrapeDetailsViaApi.
  apply truthy_true_iff in Hid. by rewrite Hid.
Qed.

(** X16. Enrichment never touches what the listing provided.  When all
    workers have returned, the record at each index agrees with the input
    record at that index on identifier, number, title, dates, agency code,
    category, link and agency name; a record without identifier is the
    input record itself; and a record whose detail request resolved
    carries the fetched email and files and the input's error field. *)
Theorem enrichment_preserves_listing (all : list Row)
    (outcome : nat → EvalOutcome) (sched : list nat) (i : nat) (base : Row) :
  all_finished (pool_exec all outcome sched pool_init) = true →
  all !! i = Some base →
  ∃ r, js_get (out (pool_exec all outcome sched pool_init)) i = Some r
       ∧ same_listing base r
       ∧ (id base = "" → r = base)
       ∧ (∀ d, id base ≠ "" → outcome i = Resolved d →
            contact_email r = detail_contact_email d
            ∧ files r = detail_files d
            ∧ _detail_error r = _detail_error base).
Proof.
  intros Hfin Hi.
  assert (Hinv : pool_inv all outcome (pool_exec all outcome sched pool_init))
    by apply pool_inv_exec, pool_inv_init.
  destruct (pool_inv_final _ _ _ Hinv Hfin) as [_ Hout].
  exists (scrapeDetailsViaApi (outcome i) base). split.
  { apply js_get_Some. rewrite Hout. unfold enriched.
    by rewrite list_lookup_imap, Hi. }
  split; [apply scrapeDetailsViaApi_same_listing |]. split.
  - apply scrapeDetailsViaApi_no_id.
  - intros d Hid ->. by rewrite scrapeDetailsViaApi_resolved.
Qed.

Lemma enrichment_preserves_listing_witness :
  ∃ r, js_get (out (pool_exec three_records three_outcomes reversed_schedule
                      pool_init)) 2 = Some r
       ∧ r = listed "" "B-3".
Proof.
  destruct (enrichment_preserves_listing three_records three_outcomes
              reversed_schedule 2 (listed "" "B-3")
              ltac:(vm_compute; reflexivity) eq_refl)
    as (r & Hget & _ & Hsame & _).
  exists r. split; [exact Hget | exact (Hsame eq_refl)].
Defined.

(** X17. At any moment of any run there are exactly
    [DETAILS_CONCURRENCY] workers, so at most that many detail requests are
    in flight; no two workers wait for the same record; and a record that a
    worker waits for is an input record whose slot has not been written. *)
Theorem pool_requests_in_flight (all : list Row)
    (outcome : nat → EvalOutcome) (sched : list nat) :
  let p := pool_exec all outcome sched pool_init in
  length (workers p) = DETAILS_CONCURRENCY
  ∧ (∀ w w' i b b',
       workers p !! w = Some (Awaiting i b) →
       workers p !! w' = Some (Awaiting i b') → w = w')
  ∧ (∀ w i b,
       workers p !! w = Some (Awaiting i b) →
       all !! i = Some b ∧ js_get (out p) i = None).
Proof.
  intros p.
  assert (Hinv : pool_inv all outcome p) by apply pool_inv_exec, pool_inv_init.
  split; [apply (inv_workers _ _ _ Hinv) |].
  split; [apply (inv_single _ _ _ Hinv) |].
  intros w i b Hw. by destruct (inv_awaiting _ _ _ Hinv w i b Hw) as (_ & ? & ?).
Qed.

Lemma effective_steps_measure (all : list Row) (outcome : nat → EvalOutcome)
    (sched : list nat) (p : Pool) :
  (effective_steps all outcome sched p
   + pool_measure all (pool_exec all outcome sched p)
   ≤ pool_measure all p)%nat.
Proof.
  revert p. induction sched as [|w sched IH]; intros p; simpl; [lia |].
  specialize (IH (pool_step all outcome w p)).
  destruct (workers p !! w) as [[|i b|]|] eqn:Hw.
  - pose proof (pool_step_decreases all outcome p w Ready Hw
                  ltac:(discriminate)). lia.
  - pose proof (pool_step_decreases all outcome p w (Awaiting i b) Hw
                  ltac:(discriminate)). lia.
  - assert (Hsame : pool_step all outcome w p = p)
      by (unfold pool_step; by rewrite Hw).
    rewrite Hsame in IH |- *. lia.
  - assert (Hsame : pool_step all outcome w p = p)
      by (unfold pool_step; by rewrite Hw).
    rewrite Hsame in IH |- *. lia.
Qed.

(** X18. No schedule keeps the pool busy for ever: the steps that find their
    worker still at work number at most two per input record plus two per
    worker. *)
Theorem pool_work_bounded (all : list Row) (outcome : nat → EvalOutcome)
    (sched : list nat) :
  (effective_steps all outcome sched pool_init
   ≤ 2 * length all + 2 * DETAILS_CONCURRENCY)%nat.
Proof.
  pose proof (effective_steps_measure all outcome sched pool_init) as Hm.
  assert (Hinit : pool_measure all pool_init
                  = (2 * length all + 2 * DETAILS_CONCURRENCY)%nat).
  { unfold pool_measure, pool_init. simpl. lia. }
  lia.
Qed.

(** *** File links *)

Lemma ends_with_spec (s suffix : string) :
  ends_with s suffix = true ↔ ∃ p, s = p +:+ suffix.
Proof.
  induction s as [|c s IH]; cbn [ends_with].
  - rewrite orb_false_r, String.eqb_eq. split.
    + intros ->. by exists "".
    + intros [p Hp]. destruct p; [done | discriminate].
  - rewrite orb_true_iff, String.eqb_eq, IH. split.
    + intros [<- | [p ->]]; [by exists "" | by exists (String c p)].
    + intros [[|d p] Hp]; [by left |]. right. exists p.
      simpl in Hp. congruence.
Qed.

Lemma has_doc_extension_spec (url : string) :
  has_doc_extension url = true
  ↔ ∃ ext p, ext ∈ doc_extensions ∧ toLowerCase url = p +:+ "." +:+ ext.
Proof.
  unfold has_doc_extension. rewrite existsb_exists. split.
  - intros (ext & Hin & He). apply ends_with_spec in He as [p Hp].
    exists ext, p. by rewrite list_elem_of_In.
  - intros (ext & p & Hin & Hp). exists ext. rewrite <- list_elem_of_In.
    split; [done |]. apply ends_with_spec. by exists p.
Qed.

Lemma keep_link_spec (x : Link) :
  keep_link x = true ↔ link_url x ≠ "" ∧ document_like (link_url x).
Proof.
  unfold keep_link, document_like.
  rewrite andb_true_iff, truthy_true_iff, !orb_true_iff.
  rewrite has_doc_extension_spec, !includes_spec.
  split; intros [Hu Hd]; (split; [done |]).
  - destruct Hd as [[[[He | Hm] | Hm] | Hm] | Hm]; [by left | right..].
    + exists "download". split; [| done]. apply list_elem_of_here.
    + exists "document". split; [| done].
      apply list_elem_of_further, list_elem_of_here.
    + exists "attachment". split; [| done].
      do 2 apply list_elem_of_further. apply list_elem_of_here.
    + exists "amend". split; [| done].
      do 3 apply list_elem_of_further. apply list_elem_of_here.
  - destruct Hd as [He | (m & Hin & Hc)]; [by repeat left |].
    repeat (apply elem_of_cons in Hin as [-> | Hin]; [tauto |]).
    by apply elem_of_nil in Hin.
Qed.

Lemma link_title_cases (resolve : string → option string) (a : Anchor) :
  link_title (link_of resolve a) ≠ ""
  ∧ (has_ink (a_textContent a) = true →
     link_title (link_of resolve a) = trim (a_textContent a))
  ∧ (has_ink (a_textContent a) = false →
     link_title (link_of resolve a)
     = match a_aria_label a with
       | Some label => if has_ink label then trim label else "File"
       | None => "File"
       end).
Proof.
  unfold link_of. cbn [link_title]. rewrite !or_else_empty_r.
  destruct (has_ink (a_textContent a)) eqn:Ht.
  - assert (Hne : trim (a_textContent a) ≠ "").
    { intros He. apply trim_ink in He. congruence. }
    apply truthy_true_iff in Hne as Htr. unfold or_else at 1. rewrite Htr.
    unfold or_else at 1. rewrite Htr.
    split; [done |]. split; [done | discriminate].
  - assert (He : trim (a_textContent a) = "") by by apply trim_ink.
    rewrite He. change (or_else "" ?b) with b.
    set (label_text := trim (default "" (a_aria_label a))).
    assert (Hne : or_else label_text "File" ≠ "").
    { unfold or_else. destruct (truthy label_text) eqn:Htr;
        [by apply truthy_true_iff | discriminate]. }
    split; [done |]. split; [discriminate |]. intros _.
    subst label_text. destruct (a_aria_label a) as [label|]; [| done].
    change (default "" (Some label)) with label. unfold or_else.
    destruct (has_ink label) eqn:Hl.
    + assert (Hx : trim label ≠ "").
      { intros Hx. apply trim_ink in Hx. congruence. }
      apply truthy_true_iff in Hx. by rewrite Hx.
    + assert (Hx : trim label = "") by by apply trim_ink.
      by rewrite Hx.
Qed.

(** X19. For an anchor whose text and [aria-label] are in the ASCII range,
    the link's title is never empty: it is the trimmed text of the anchor
    if that has a visible character, else the trimmed [aria-label] if that
    has one, else the word "File". *)
Theorem link_title_never_empty (resolve : string → option string)
    (a : Anchor) :
  ascii_text (a_textContent a) = true →
  ascii_text (default "" (a_aria_label a)) = true →
  link_title (link_of resolve a) ≠ ""
  ∧ (has_ink (a_textContent a) = true →
     link_title (link_of resolve a) = trim (a_textContent a))
  ∧ (has_ink (a_textContent a) = false →
     link_title (link_of resolve a)
     = match a_aria_label a with
       | Some label => if has_ink label then trim label else "File"
       | None => "File"
       end).
Proof. intros _ _. apply link_title_cases. Qed.

Lemma link_title_never_empty_witness :
  link_title (link_of (fun _ => None)
                {| a_textContent := "  "; a_aria_label := Some " Bid specs ";
                   a_href := "/docs/specs.pdf" |})
  = "Bid specs".
Proof.
  exact (proj2 (proj2 (link_title_never_empty (fun _ => None)
           {| a_textContent := "  "; a_aria_label := Some " Bid specs ";
              a_href := "/docs/specs.pdf" |} eq_refl eq_refl)) eq_refl).
Defined.

(** X20. The links kept from a fragment are, in document order, exactly the
    anchors' links whose resolved URL is non-empty and, lower-cased, ends
    in one of the listed document extensions or contains one of the
    markers "download", "document", "attachment", "amend". *)
Theorem links_of_kept_iff (resolve : string → option string)
    (anchors : list Anchor) (x : Link) :
  links_of resolve anchors `sublist_of` map (link_of resolve) anchors
  ∧ (x ∈ links_of resolve anchors
     ↔ (∃ a, a ∈ anchors ∧ x = link_of resolve a)
       ∧ link_url x ≠ "" ∧ document_like (link_url x)).
Proof.
  unfold links_of. split; [apply sublist_filter |].
  rewrite list_elem_of_filter, keep_link_spec, list_elem_of_fmap.
  split.
  - intros [Hk (a & -> & Ha)]. split; [eauto | done].
  - intros [(a & Ha & ->) Hk]. split; [done | eauto].
Qed.

(** *** Merging file lists *)

Lemma truthy_app_r (a b : string) : truthy b = true → truthy (a +:+ b) = true.
Proof. destruct a; simpl; [done |]. by intros _. Qed.

Lemma file_key_truthy (item : Link) : truthy (file_key item) = true.
Proof. unfold file_key. by apply truthy_app_r. Qed.

Lemma merge_files_loop_uniqBy (items : list Link) (seen : gset string)
    (files : list FileEntry) :
  merge_files_loop items seen files
  = files ++ map file_of_link (uniqBy_loop file_key items seen []).
Proof.
  revert seen files. induction items as [|x items IH]; intros seen files;
    simpl.
  - by rewrite app_nil_r.
  - rewrite file_key_truthy. simpl. case_bool_decide; [apply IH |].
    rewrite IH, (uniqBy_loop_out file_key items _ [x]). simpl.
    by rewrite <- app_assoc.
Qed.

(** X21. The merged file list has one entry for each distinct key
    [title@@url] of the two link lists, in first-seen order: the entries
    are the links of the detail fragment followed by those of the document
    list with some left out, no key occurs twice, every link's key is
    represented, and the entries contributed by the detail fragment come
    first, exactly as when it is merged alone. *)
Theorem merge_files_first_seen (links docs_links : list Link) :
  ∃ kept,
    merge_files links docs_links = map file_of_link kept
    ∧ kept `sublist_of` (links ++ docs_links)
    ∧ NoDup (file_key <$> kept)
    ∧ (∀ x, x ∈ links ++ docs_links → file_key x ∈ file_key <$> kept)
    ∧ merge_files links [] `prefix_of` merge_files links docs_links.
Proof.
  exists (uniqBy (links ++ docs_links) file_key).
  assert (Hm : ∀ l1 l2, merge_files l1 l2
                        = map file_of_link (uniqBy (l1 ++ l2) file_key)).
  { intros l1 l2. unfold merge_files. by rewrite merge_files_loop_uniqBy. }
  destruct (uniqBy_fresh file_key (links ++ docs_links)) as [_ Hnd].
  split; [apply Hm |]. split; [apply uniqBy_sublist |]. split; [done |].
  split.
  - intros x Hx.
    destruct (uniqBy_loop_covers file_key (links ++ docs_links) ∅ x Hx
                (file_key_truthy x)) as [Hs | Ho]; [| done].
    by apply not_elem_of_empty in Hs.
  - rewrite !Hm, app_nil_r. unfold uniqBy. rewrite uniqBy_loop_app.
    rewrite map_app. by eexists.
Qed.

Lemma file_key_split (t1 t2 u1 u2 : string) :
  has_char "@" t1 = false → has_char "@" t2 = false →
  t1 +:+ "@@" +:+ u1 = t2 +:+ "@@" +:+ u2 → t1 = t2 ∧ u1 = u2.
Proof.
  revert t2. induction t1 as [|c t1 IH]; intros [|d t2] H1 H2 Heq;
    simpl in *.
  - by injection Heq as ->.
  - injection Heq as <- _. apply orb_false_iff in H2 as [H2 _].
    discriminate.
  - injection Heq as -> _. apply orb_false_iff in H1 as [H1 _].
    discriminate.
  - injection Heq as -> Heq.
    apply orb_false_iff in H1 as [_ H1]. apply orb_false_iff in H2 as [_ H2].
    destruct (IH t2 H1 H2 Heq) as [-> ->]. done.
Qed.

(** X22. When link titles contain no at-sign, the merge key tells links
    apart exactly as the pair of title and URL does: two links with the
    same key have the same title and the same URL. *)
Theorem file_key_faithful (x y : Link) :
  has_char "@" (link_title x) = false →
  has_char "@" (link_title y) = false →
  file_key x = file_key y → x = y.
Proof.
  intros Hx Hy Hk. unfold file_key in Hk.
  destruct (file_key_split _ _ _ _ Hx Hy Hk) as [Ht Hu].
  destruct x, y. simpl in *. by subst.
Qed.

Lemma file_key_faithful_witness :
  {| link_title := "Specs"; link_url := "https://mmp.delaware.gov/x.pdf" |}
  = {| link_title := "Specs"; link_url := "https://mmp.delaware.gov/x.pdf" |}.
Proof.
  apply (file_key_faithful
           {| link_title := "Specs";
              link_url := "https://mmp.delaware.gov/x.pdf" |}
           {| link_title := "Specs";
              link_url := "https://mmp.delaware.gov/x.pdf" |});
    reflexivity.
Defined.

(** *** The email of a [mailto:] anchor *)

Lemma before_question_app (addr rest : string) :
  has_char "?" addr = false →
  before_question (addr +:+ String "?" rest) = addr
  ∧ before_question addr = addr.
Proof.
  induction addr as [|c addr IH]; simpl; [done |].
  intros Hc. apply orb_false_iff in Hc as [Hc Hr]. rewrite Hc.
  destruct (IH Hr) as [-> ->]. done.
Qed.

Lemma before_question_clean (s : string) :
  has_char "?" (before_question s) = false.
Proof.
  induction s as [|c s IH]; simpl; [done |].
  destruct (Ascii.eqb c "?") eqn:Hc; simpl; [done |]. by rewrite Hc.
Qed.

Lemma trim_start_has_char (c : ascii) (s : string) :
  has_char c s = false → has_char c (trim_start s) = false.
Proof.
  induction s as [|d s IH]; simpl; [done |].
  intros Hc. apply orb_false_iff in Hc as [Hd Hs].
  destruct (is_ws d); [by apply IH |]. simpl. by rewrite Hd, Hs.
Qed.

Lemma trim_end_has_char (c : ascii) (s : string) :
  has_char c s = false → has_char c (trim_end s) = false.
Proof.
  induction s as [|d s IH]; [done |]. rewrite trim_end_cons.
  cbn [has_char]. intros Hc. apply orb_false_iff in Hc as [Hd Hs].
  specialize (IH Hs). destruct (trim_end s) as [|e t].
  - destruct (is_ws d); simpl; [done | by rewrite Hd].
  - cbn [has_char] in *. by rewrite Hd, IH.
Qed.

Lemma mail_anchor_href (anchors : list Anchor) (m : Anchor) :
  mail_anchor anchors = Some m →
  m ∈ anchors ∧ ∃ rest, a_href m = "mailto:" +:+ rest.
Proof.
  unfold mail_anchor. intros Hf. apply find_some in Hf as [Hin Hs].
  split; [by apply list_elem_of_In |]. by apply starts_with_spec.
Qed.

Lemma find_first {A} (f : A → bool) (l : list A) (x : A) :
  List.find f l = Some x →
  ∃ l1 l2, l = l1 ++ x :: l2 ∧ (∀ y, y ∈ l1 → f y = false) ∧ f x = true.
Proof.
  induction l as [|y l IH]; simpl; [done |].
  destruct (f y) eqn:Hy.
  - intros Heq. injection Heq as <-. exists [], l.
    split; [done |]. split; [| done]. intros z Hz. by apply elem_of_nil in Hz.
  - intros Hf. destruct (IH Hf) as (l1 & l2 & -> & Hl1 & Hx).
    exists (y :: l1), l2. split; [done |]. split; [| done].
    intros z Hz. apply elem_of_cons in Hz as [-> | Hz]; auto.
Qed.

(** X23. When a fragment has anchors whose [href] starts with [mailto:], the
    email is taken from the first of them in document order: no anchor
    before the chosen one has such an [href].  For an [href] in the ASCII
    range the email is what follows the scheme up to the first question
    mark, trimmed; it never contains a question mark and has no whitespace
    at either end. *)
Theorem mailto_email_address (anchors : list Anchor) (m : Anchor) :
  mail_anchor anchors = Some m →
  ascii_text (a_href m) = true →
  (∃ earlier later,
      anchors = earlier ++ m :: later
      ∧ ∀ a, a ∈ earlier → starts_with "mailto:" (a_href a) = false)
  ∧ (∃ rest, a_href m = "mailto:" +:+ rest
             ∧ email_of_mailto (a_href m) = trim (before_question rest)
             ∧ ∀ addr tail,
                 has_char "?" addr = false →
                 rest = addr ∨ rest = addr +:+ "?" +:+ tail →
                 email_of_mailto (a_href m) = trim addr)
  ∧ has_char "?" (email_of_mailto (a_href m)) = false
  ∧ starts_ws (email_of_mailto (a_href m)) = false
  ∧ ends_ws (email_of_mailto (a_href m)) = false.
Proof.
  intros Hm _. destruct (mail_anchor_href _ _ Hm) as [Hin [rest Hrest]].
  split.
  { unfold mail_anchor in Hm.
    destruct (find_first _ _ _ Hm) as (l1 & l2 & -> & Hl1 & _). eauto. }
  unfold email_of_mailto. rewrite !or_else_empty_r.
  split; [| split; [| split]].
  - exists rest. split; [done |]. rewrite Hrest.
    change (strip_mailto ("mailto:" +:+ rest)) with rest.
    split; [done |]. intros addr tail Haddr Hr.
    destruct (before_question_app addr tail Haddr) as [H1 H2].
    destruct Hr as [-> | ->]; [by rewrite H2 |].
    change (addr +:+ "?" +:+ tail) with (addr +:+ String "?" tail).
    by rewrite H1.
  - unfold trim. apply trim_end_has_char, trim_start_has_char.
    apply before_question_clean.
  - unfold trim. apply trim_end_no_lead, trim_start_no_lead.
  - unfold trim. apply trim_end_no_trail.
Qed.

(** A fragment with a document link and two [mailto:] anchors: the first one
    gives the email. *)
Lemma mailto_email_address_witness :
  mail_anchor
    [ {| a_textContent := "Specs"; a_aria_label := None;
         a_href := "/docs/specs.pdf" |};
      {| a_textContent := "Buyer"; a_aria_label := None;
         a_href := "mailto: buyer@delaware.gov ?subject=Bid" |};
      {| a_textContent := "Help"; a_aria_label := None;
         a_href := "mailto:help@delaware.gov" |} ]
  = Some {| a_textContent := "Buyer"; a_aria_label := None;
            a_href := "mailto: buyer@delaware.gov ?subject=Bid" |}
  ∧ email_of_mailto "mailto: buyer@delaware.gov ?subject=Bid"
    = "buyer@delaware.gov".
Proof.
  split; [reflexivity |].
  destruct (mailto_email_address
              [ {| a_textContent := "Specs"; a_aria_label := None;
                   a_href := "/docs/specs.pdf" |};
                {| a_textContent := "Buyer"; a_aria_label := None;
                   a_href := "mailto: buyer@delaware.gov ?subject=Bid" |};
                {| a_textContent := "Help"; a_aria_label := None;
                   a_href := "mailto:help@delaware.gov" |} ]
              {| a_textContent := "Buyer"; a_aria_label := None;
                 a_href := "mailto: buyer@delaware.gov ?subject=Bid" |}
              eq_refl eq_refl)
    as (_ & (rest & Hrest & _ & Haddr) & _).
  injection Hrest as <-.
  exact (Haddr " buyer@delaware.gov " "subject=Bid" eq_refl
           (or_intror eq_refl)).
Defined.

(** *** The lookup join *)

Lemma agency_map_of_snoc (rows : list AgencyRow) (r : AgencyRow) :
  agency_map_of (rows ++ [r])
  = <[normalize (code r) := normalize (name r)]> (agency_map_of rows).
Proof. unfold agency_map_of. by rewrite foldl_app. Qed.

Lemma agency_map_of_lookup (rows : list AgencyRow) (c n : string) :
  agency_map_of rows !! c = Some n →
  ∃ r, r ∈ rows ∧ c = normalize (code r) ∧ n = normalize (name r).
Proof.
  induction rows as [|r rows IH] using rev_ind.
  - unfold agency_map_of. simpl. by rewrite lookup_empty.
  - rewrite agency_map_of_snoc.
    destruct (decide (normalize (code r) = c)) as [<- | Hne].
    + rewrite lookup_insert_eq. intros Heq. injection Heq as <-.
      exists r. split; [| done]. apply elem_of_app. right.
      apply list_elem_of_here.
    + rewrite lookup_insert_ne by done. intros Hl.
      destruct (IH Hl) as (r' & Hin & Hc & Hn). exists r'.
      split; [| done]. apply elem_of_app. by left.
Qed.

(** X24. In the agency map the last row wins: a code maps to the normalized
    name of the last row with that normalized code, and a code is in the
    map only if some row has it. *)
Theorem agency_map_last_row_wins (before after : list AgencyRow)
    (r : AgencyRow) (c : string) :
  (∀ r', r' ∈ after → normalize (code r') ≠ normalize (code r)) →
  agency_map_of (before ++ r :: after) !! normalize (code r)
  = Some (normalize (name r))
  ∧ (is_Some (agency_map_of (before ++ r :: after) !! c) →
     ∃ r', r' ∈ before ++ r :: after ∧ c = normalize (code r')).
Proof.
  intros Hlast. split.
  - induction after as [|x after IH] using rev_ind.
    + by rewrite agency_map_of_snoc, lookup_insert_eq.
    + replace (before ++ r :: after ++ [x])
        with ((before ++ r :: after) ++ [x]) by by rewrite <- app_assoc.
      rewrite agency_map_of_snoc, lookup_insert_ne.
      * apply IH. intros r' Hr'. apply Hlast, elem_of_app. by left.
      * apply Hlast, elem_of_app. right. apply list_elem_of_here.
  - intros [n Hn]. destruct (agency_map_of_lookup _ _ _ Hn) as (r' & ? & ? & _).
    eauto.
Qed.

Lemma agency_map_last_row_wins_witness :
  agency_map_of ([ {| code := "DOT"; name := "Old name" |} ]
                 ++ {| code := " DOT"; name := "Dept. of  Transportation" |}
                 :: [ {| code := "DSS"; name := "Social Services" |} ])
    !! "DOT"
  = Some "Dept. of Transportation".
Proof.
  refine (proj1 (agency_map_last_row_wins
                   [ {| code := "DOT"; name := "Old name" |} ]
                   [ {| code := "DSS"; name := "Social Services" |} ]
                   {| code := " DOT"; name := "Dept. of  Transportation" |}
                   "" _)).
  intros r' Hr'. apply list_elem_of_singleton in Hr' as ->. discriminate.
Defined.

Lemma agency_rows_ink (tables : list Table) (r : AgencyRow) :
  r ∈ agency_rows tables →
  has_ink (code r) = true ∧ has_ink (name r) = true.
Proof.
  unfold agency_rows. destruct (best_table tables) as [best|];
    [| intros Hr; by apply elem_of_nil in Hr].
  intros Hr. apply list_elem_of_filter in Hr as [Hk Hr].
  apply list_elem_of_fmap in Hr as (tds & -> & _).
  apply andb_prop in Hk as [Hc Hn]. unfold agency_row_of in *.
  cbn [code name] in *.
  rewrite or_else_empty_r, list_lookup_fmap in Hc.
  rewrite or_else_empty_r, list_lookup_fmap in Hn.
  rewrite !or_else_empty_r, !list_lookup_fmap.
  assert (Hcell : ∀ o : option string,
            truthy (default "" ((fun td => trim (or_else td "")) <$> o)) = true →
            has_ink (default "" ((fun td => trim (or_else td "")) <$> o))
            = true).
  { intros [td|]; simpl; [| done]. rewrite or_else_empty_r, trim_has_ink.
    intros Ht. apply truthy_true_iff in Ht.
    destruct (has_ink td) eqn:Hi; [done |]. by apply trim_ink in Hi. }
  split; by apply Hcell.
Qed.

(** X25. Every entry of a map built by [buildAgencyMap] has a non-empty,
    whitespace-normalized code and name; hence the join gives a record an
    empty agency name exactly when its agency code is not in the map. *)
Theorem buildAgencyMap_entries (site : AgencySite)
    (agencyMap : gmap string string) (c : string) :
  buildAgencyMap site = Ok agencyMap →
  (∀ n, agencyMap !! c = Some n →
     c ≠ "" ∧ n ≠ "" ∧ tidy c = true ∧ tidy n = true)
  ∧ (agency_lookup agencyMap c = "" ↔ agencyMap !! c = None).
Proof.
  intros Hbuild.
  assert (Hentries : ∀ n, agencyMap !! c = Some n →
            c ≠ "" ∧ n ≠ "" ∧ tidy c = true ∧ tidy n = true).
  { unfold buildAgencyMap in Hbuild.
    destruct (site_home site) as [anchors|]; [| done].
    destruct (agency_info_href anchors) as [href|].
    2: { injection Hbuild as <-. intros n. by rewrite lookup_empty. }
    destruct (truthy href).
    2: { injection Hbuild as <-. intros n. by rewrite lookup_empty. }
    destruct (site_page site href) as [tables|]; [| done].
    injection Hbuild as <-. intros n Hn.
    apply agency_map_of_lookup in Hn as (r & Hr & -> & ->).
    apply agency_rows_ink in Hr as [Hc Hnm].
    repeat split; try apply normalize_tidy.
    - intros He. apply normalize_empty_ink in He. congruence.
    - intros He. apply normalize_empty_ink in He. congruence. }
  split; [done |].
  unfold agency_lookup. rewrite or_else_empty_r.
  destruct (agencyMap !! c) as [n|] eqn:Hn; simpl; [| done].
  destruct (Hentries n eq_refl) as (_ & Hne & _). split; [done | discriminate].
Qed.

(** A site whose start page links to an agency page with one table. *)
Lemma buildAgencyMap_entries_witness :
  agency_lookup {["DOT" := "Transportation"]} "DSS" = "".
Proof.
  refine (proj2 (proj2 (buildAgencyMap_entries
            {| site_home :=
                 Ok [ {| anchor_text := "Agency Info";
                         anchor_href := "https://mmp.delaware.gov/Agency" |} ];
               site_page := fun _ =>
                 Ok [ {| table_ths := ["Code"; "Agency"];
                         table_trs := [["DOT"; " Transportation "]; ["X"]] |} ]
            |}
            {["DOT" := "Transportation"]} "DSS" _)) _).
  - vm_compute. reflexivity.
  - reflexivity.
Defined.

(** *** Reading resolved fields *)

(** X27. A mapped field whose resolved index names a cell of the row is that
    cell's text, whitespace-normalized. *)
Theorem extract_row_resolved_field (ci : ColIdx) (tr : Tr)
    (col : ColIdx → Z) (field : Row → string) (n : nat) (cell : string) :
  (col, field) ∈ mapped_fields →
  col ci = Z.of_nat n →
  tr_tds tr !! n = Some cell →
  field (extract_row ci tr) = normalize cell.
Proof.
  intros Hin Hcol Hcell.
  assert (Hg : get (map normalize (tr_tds tr)) (col ci) = normalize cell).
  { rewrite Hcol. apply get_in_range. by rewrite list_lookup_fmap, Hcell. }
  unfold mapped_fields in Hin.
  repeat (apply elem_of_cons in Hin as [Heq | Hin];
          [injection Heq as -> ->; exact Hg |]).
  by apply elem_of_nil in Hin.
Qed.

Lemma extract_row_resolved_field_witness :
  contract_title (extract_row wide_mapping short_row) = "Paving".
Proof.
  apply (extract_row_resolved_field wide_mapping short_row
           col_contract_title contract_title 1 "Paving").
  - unfold mapped_fields. apply list_elem_of_further, list_elem_of_here.
  - reflexivity.
  - reflexivity.
Defined.

(** *** Leaving the loop on the last page *)

(** X28. When the walk reaches a page on which the next control is absent
    or disabled, it ends there without clicking: the result is the
    deduplicated list of everything accumulated, this page included. *)
Theorem walk_ends_on_last_page {W} `{Browser W}
    (agencyMap : gmap string string) (maxPages maxItems n : nat)
    (all : list Row) (seen : gset string) (s_init s0 s s1 : W)
    (rows : list Row) :
  walk_start s_init = Ok (tt, s0) →
  walk_reaches agencyMap maxItems maxPages [] ∅ s0 (S n) all seen s →
  visit_page s = Ok (rows, s1) →
  next_disabled (read_dom s1) = true →
  walk agencyMap maxPages maxItems s_init
  = Ok (uniqBy (add_new agencyMap rows all seen).1 final_key, s1).
Proof.
  intros Hstart Hreach Hvisit Hd.
  unfold walk. unfold bind at 1. rewrite Hstart. unfold bind.
  rewrite (walk_loop_reaches _ _ _ _ _ _ _ _ _ _ Hreach).
  by rewrite (walk_loop_last_page agencyMap maxItems n all seen s s1 rows).
Qed.

Lemma walk_ends_on_last_page_witness :
  @walk _ (scripted title_only_page) ∅ MAX_PAGES MAX_ITEMS (0, 0)%nat
  = Ok (uniqBy (add_new ∅ [title_only_row] [] ∅).1 final_key, (0, 0)%nat).
Proof.
  apply (@walk_ends_on_last_page _ (scripted title_only_page) ∅ MAX_PAGES
           MAX_ITEMS 299 [] ∅ (0, 0)%nat (0, 0)%nat (0, 0)%nat (0, 0)%nat
           [title_only_row]).
  - vm_compute; reflexivity.
  - apply walk_reaches_here.
  - vm_compute; reflexivity.
  - reflexivity.
Defined.
